(** * UUnrealObjectPooler: a shallow embedding of src/unreal/UnrealObjectPooler.{h,cpp}

    The world subsystem keeps three maps ([ObjectPools], [ActorToClassMap],
    [PoolRoots]) and one root pointer ([MainPoolRoot]); it talks to the host
    world (spawn, IsValid, Destroy, flags of an actor).  Actors are
    identified by [nat] handles allocated by the host from a counter, classes
    by [nat] ([TSubclassOf<AActor>] is [option nat], [None] being null).
    A null dereference in the source (a root actor whose spawn failed) is
    modelled by the operation returning [None]. *)

From stdpp Require Import base gmap list.

(** ** Data model *)

(** [EPoolType] (UnrealObjectPooler.h) *)
Inductive EPoolType := Nodes | NodesSpawner | GameObjects | Billboards.

#[global] Instance EPoolType_eq_dec : EqDecision EPoolType.
Proof. solve_decision. Defined.

Definition EPoolType_to_nat (p : EPoolType) : nat :=
  match p with Nodes => 0 | NodesSpawner => 1 | GameObjects => 2 | Billboards => 3 end.
Definition EPoolType_of_nat (n : nat) : EPoolType :=
  match n with 0 => Nodes | 1 => NodesSpawner | 2 => GameObjects | _ => Billboards end.

#[global] Program Instance EPoolType_countable : Countable EPoolType :=
  inj_countable' EPoolType_to_nat EPoolType_of_nat _.
Next Obligation. intros []; reflexivity. Qed.

Abbreviation actor := nat (only parsing).
Abbreviation uclass := nat (only parsing).

(** [AActor::StaticClass()], the class of the root actors. *)
Definition AActor_StaticClass : uclass := 0.

(** [FVector] and [FRotator]. *)
Definition FVector := (Z * Z * Z)%type.
Definition FRotator := (Z * Z * Z)%type.
Definition ZeroVector : FVector := (0, 0, 0)%Z.
Definition ZeroRotator : FRotator := (0, 0, 0)%Z.

(** The part of an [AActor] the pooler reads or writes. *)
Record ActorRec := mkActor {
  a_class : uclass;
  a_hidden : bool;            (* SetActorHiddenInGame *)
  a_collision : bool;         (* SetActorEnableCollision *)
  a_tick : bool;              (* SetActorTickEnabled *)
  a_comps : list bool;        (* Activate / Deactivate of each UActorComponent *)
  a_location : FVector;
  a_rotation : FRotator;
  a_parent : option actor     (* AttachToActor *)
}.

(** The host world.  [w_alive] is the set of actors for which [IsValid]
    holds; [w_can_spawn c] says whether [SpawnActor] of class [c] succeeds;
    [w_ncomps c] is the number of components an actor of class [c] has. *)
Record World := mkWorld {
  w_exists : bool;                 (* GetWorld() != nullptr *)
  w_actors : gmap actor ActorRec;
  w_alive : gset actor;
  w_next : actor;
  w_can_spawn : uclass -> bool;
  w_ncomps : uclass -> nat
}.

(** [FActorPool::InactiveActors] is a [TArray<AActor*>]: a list in array
    order, [Pop] removing the last element, [AddUnique] appending. *)
Record State := mkState {
  world : World;
  ObjectPools : gmap uclass (list actor);
  ActorToClassMap : gmap actor uclass;
  PoolRoots : gmap EPoolType actor;
  MainPoolRoot : option actor;
  warnings : list actor            (* UE_LOG(..., Warning, ...) on a foreign return *)
}.

(** ** Host world operations *)

Definition IsValid (w : World) (a : actor) : bool := bool_decide (a ∈ w_alive w).

Definition IsValidPtr (w : World) (p : option actor) : bool :=
  match p with Some a => IsValid w a | None => false end.

(** [World->SpawnActor]: a fresh handle, visible, colliding, ticking and
    with its components active, or [None] if the host refuses. *)
Definition SpawnActor (w : World) (c : uclass) (loc : FVector) (rot : FRotator)
  : option (actor * World) :=
  if w_can_spawn w c then
    let a := w_next w in
    let r := mkActor c false true true (repeat true (w_ncomps w c)) loc rot None in
    Some (a, mkWorld (w_exists w) (<[a := r]> (w_actors w)) ({[a]} ∪ w_alive w)
                     (S a) (w_can_spawn w) (w_ncomps w))
  else None.

(** [Actor->Destroy()]: the actor stops being valid.  Actors attached to it
    are detached by the engine, not destroyed: they stay valid.  The model
    does not clear their [a_parent] link. *)
Definition DestroyActor (w : World) (a : actor) : World :=
  mkWorld (w_exists w) (w_actors w) (w_alive w ∖ {[a]}) (w_next w)
          (w_can_spawn w) (w_ncomps w).

Definition modify_actor (f : ActorRec -> ActorRec) (w : World) (a : actor) : World :=
  mkWorld (w_exists w) (alter f a (w_actors w)) (w_alive w) (w_next w)
          (w_can_spawn w) (w_ncomps w).

Definition set_loc_rot (loc : FVector) (rot : FRotator) (r : ActorRec) : ActorRec :=
  mkActor (a_class r) (a_hidden r) (a_collision r) (a_tick r) (a_comps r) loc rot (a_parent r).

Definition set_parent (p : actor) (r : ActorRec) : ActorRec :=
  mkActor (a_class r) (a_hidden r) (a_collision r) (a_tick r) (a_comps r)
          (a_location r) (a_rotation r) (Some p).

(** The body of [SetActorActive] on one actor. *)
Definition set_active_rec (b : bool) (r : ActorRec) : ActorRec :=
  mkActor (a_class r) (negb b) b b (map (fun _ => b) (a_comps r))
          (a_location r) (a_rotation r) (a_parent r).

(** ** The pooler *)

(** A state monad over [State] whose failure is a null dereference. *)
Definition M (A : Type) := State -> option (A * State).
Definition ret {A} (x : A) : M A := fun s => Some (x, s).
Definition bind {A B} (m : M A) (k : A -> M B) : M B :=
  fun s => match m s with Some (x, s') => k x s' | None => None end.
Definition crash {A} : M A := fun _ => None.
Definition get : M State := fun s => Some (s, s).
Definition put (s : State) : M unit := fun _ => Some (tt, s).

Notation "x <- m ;; k" := (bind m (fun x => k)) (at level 100, m at next level, right associativity).
Notation "m ;;; k" := (bind m (fun _ => k)) (at level 100, right associativity).

Definition set_world (w : World) (s : State) : State :=
  mkState w (ObjectPools s) (ActorToClassMap s) (PoolRoots s) (MainPoolRoot s) (warnings s).
Definition set_pools (p : gmap uclass (list actor)) (s : State) : State :=
  mkState (world s) p (ActorToClassMap s) (PoolRoots s) (MainPoolRoot s) (warnings s).
Definition set_classmap (m : gmap actor uclass) (s : State) : State :=
  mkState (world s) (ObjectPools s) m (PoolRoots s) (MainPoolRoot s) (warnings s).
Definition set_roots (m : gmap EPoolType actor) (s : State) : State :=
  mkState (world s) (ObjectPools s) (ActorToClassMap s) m (MainPoolRoot s) (warnings s).
Definition set_main (p : option actor) (s : State) : State :=
  mkState (world s) (ObjectPools s) (ActorToClassMap s) (PoolRoots s) p (warnings s).
Definition add_warning (a : actor) (s : State) : State :=
  mkState (world s) (ObjectPools s) (ActorToClassMap s) (PoolRoots s) (MainPoolRoot s)
          (warnings s ++ [a]).

Definition modify (f : State -> State) : M unit := fun s => Some (tt, f s).

(** The pool of a class, an absent pool reading as empty. *)
Definition pool_of (s : State) (c : uclass) : list actor :=
  default [] (ObjectPools s !! c).

(** [SetActorActive] *)
Definition SetActorActive (a : actor) (b : bool) : M unit :=
  s <- get ;;
  if IsValid (world s) a
  then put (set_world (modify_actor (set_active_rec b) (world s) a) s)
  else ret tt.

(** The [while] loop of [SpawnObject], on the array read from its end:
    [Pop] the last element, stop at the first valid one, drop invalid ones. *)
Fixpoint pop_valid (valid : actor -> bool) (rl : list actor) : option actor * list actor :=
  match rl with
  | [] => (None, [])
  | x :: rl' => if valid x then (Some x, rl') else pop_valid valid rl'
  end.

Definition take_from_pool (valid : actor -> bool) (l : list actor) : option actor * list actor :=
  let '(r, rl) := pop_valid valid (rev l) in (r, rev rl).

(** [TArray::AddUnique] *)
Definition AddUnique (x : actor) (l : list actor) : list actor :=
  if bool_decide (x ∈ l) then l else l ++ [x].

(** Spawning a root actor and dereferencing the result. *)
Definition spawn_root : M actor :=
  s <- get ;;
  match SpawnActor (world s) AActor_StaticClass ZeroVector ZeroRotator with
  | Some (r, w') => put (set_world w' s) ;;; ret r
  | None => crash
  end.

(** The "Create new root for this type" tail of [GetOrCreatePoolRoot]:
    spawn, attach under [MainPoolRoot], record in [PoolRoots]. *)
Definition create_pool_root (pt : EPoolType) : M (option actor) :=
  nr <- spawn_root ;;
  s <- get ;;
  (match MainPoolRoot s with
   | Some m => modify (fun s => set_world (modify_actor (set_parent m) (world s) nr) s)
   | None => ret tt
   end) ;;;
  modify (fun s => set_roots (<[pt := nr]> (PoolRoots s)) s) ;;;
  ret (Some nr).

(** [GetOrCreatePoolRoot] *)
Definition GetOrCreatePoolRoot (pt : EPoolType) : M (option actor) :=
  s <- get ;;
  if negb (w_exists (world s)) then ret None else
  (if IsValidPtr (world s) (MainPoolRoot s) then ret tt
   else r <- spawn_root ;; modify (set_main (Some r))) ;;;
  s <- get ;;
  match PoolRoots s !! pt with
  | Some r => if IsValid (world s) r then ret (Some r) else create_pool_root pt
  | None => create_pool_root pt
  end.

(** [SpawnObject].  [ObjectPools.FindOrAdd] is the first write; the pops
    of the [while] loop then shorten the same pool. *)
Definition SpawnObject (ActorClass : option uclass) (Location : FVector) (Rotation : FRotator)
    (PoolType : EPoolType) : M (option actor) :=
  match ActorClass with
  | None => ret None
  | Some c =>
    s <- get ;;
    if negb (w_exists (world s)) then ret None else
    modify (fun s => set_pools (<[c := pool_of s c]> (ObjectPools s)) s) ;;;
    s <- get ;;
    let '(reused, rest) := take_from_pool (IsValid (world s)) (pool_of s c) in
    modify (fun s => set_pools (<[c := rest]> (ObjectPools s)) s) ;;;
    spawned <- (match reused with
      | Some a => ret (Some a)
      | None =>
        s <- get ;;
        match SpawnActor (world s) c Location Rotation with
        | Some (a, w') =>
          put (set_world w' s) ;;;
          modify (fun s => set_classmap (<[a := c]> (ActorToClassMap s)) s) ;;;
          root <- GetOrCreatePoolRoot PoolType ;;
          (match root with
           | Some rt => modify (fun s => set_world (modify_actor (set_parent rt) (world s) a) s)
           | None => ret tt
           end) ;;;
          ret (Some a)
        | None => ret None
        end
      end) ;;
    match spawned with
    | Some a =>
      modify (fun s => set_world (modify_actor (set_loc_rot Location Rotation) (world s) a) s) ;;;
      SetActorActive a true ;;;
      ret (Some a)
    | None => ret None
    end
  end.

(** [ReturnObjectToPool] *)
Definition ReturnObjectToPool (a : actor) : M unit :=
  s <- get ;;
  if negb (IsValid (world s) a) then ret tt else
  match ActorToClassMap s !! a with
  | Some c =>
    SetActorActive a false ;;;
    modify (fun s => set_pools (<[c := AddUnique a (pool_of s c)]> (ObjectPools s)) s)
  | None =>
    modify (add_warning a) ;;;
    modify (fun s => set_world (DestroyActor (world s) a) s)
  end.

(** The [for] loop of [InitializePool], run [n] times. *)
Fixpoint InitializePool_loop (c : uclass) (PoolType : EPoolType) (n : nat) : M unit :=
  match n with
  | O => ret tt
  | S n' =>
    r <- SpawnObject (Some c) ZeroVector ZeroRotator PoolType ;;
    (match r with Some a => ReturnObjectToPool a | None => ret tt end) ;;;
    InitializePool_loop c PoolType n'
  end.

(** [InitializePool]; [Count] is an [int32], the loop runs [max 0 Count] times. *)
Definition InitializePool (ActorClass : option uclass) (Count : Z) (PoolType : EPoolType) : M unit :=
  match ActorClass with
  | None => ret tt
  | Some c => InitializePool_loop c PoolType (Z.to_nat Count)
  end.

(** The inner loop of [Deinitialize]: destroy each valid actor of a pool. *)
Fixpoint destroy_valid (w : World) (l : list actor) : World :=
  match l with
  | [] => w
  | a :: l' => destroy_valid (if IsValid w a then DestroyActor w a else w) l'
  end.

Fixpoint destroy_pools (w : World) (ps : list (uclass * list actor)) : World :=
  match ps with
  | [] => w
  | (_, l) :: ps' => destroy_pools (destroy_valid w l) ps'
  end.

(** [Deinitialize] *)
Definition Deinitialize : M unit :=
  s <- get ;;
  put (set_world (destroy_pools (world s) (map_to_list (ObjectPools s))) s) ;;;
  modify (set_pools ∅) ;;;
  modify (set_classmap ∅) ;;;
  modify (set_roots ∅) ;;;
  s <- get ;;
  match MainPoolRoot s with
  | Some m =>
    if IsValid (world s) m
    then put (set_main None (set_world (DestroyActor (world s) m) s))
    else ret tt
  | None => ret tt
  end.

(** A subsystem freshly created in world [w]. *)
Definition init_state (w : World) : State := mkState w ∅ ∅ ∅ None [].

(** ** Runs of the subsystem *)

(** One call into the subsystem, or one action of the host world outside
    it: an actor destroyed by someone else, an actor spawned by someone
    else, a change of what the host is willing to spawn. *)
Inductive step : State -> State -> Prop :=
| step_spawn cls loc rot pt r s s' :
    SpawnObject cls loc rot pt s = Some (r, s') -> step s s'
| step_return a s s' :
    ReturnObjectToPool a s = Some (tt, s') -> step s s'
| step_init cls n pt s s' :
    InitializePool cls n pt s = Some (tt, s') -> step s s'
| step_deinit s s' :
    Deinitialize s = Some (tt, s') -> step s s'
| step_ext_destroy a s :
    step s (set_world (DestroyActor (world s) a) s)
| step_ext_spawn c loc rot a w' s :
    SpawnActor (world s) c loc rot = Some (a, w') -> step s (set_world w' s)
| step_ext_policy f s :
    step s (set_world (mkWorld (w_exists (world s)) (w_actors (world s)) (w_alive (world s))
                               (w_next (world s)) f (w_ncomps (world s))) s).

(** States reachable from a fresh subsystem in a world whose handles in
    use are all below its counter. *)
Inductive reachable : State -> Prop :=
| reach_init w :
    (forall a, a ∈ w_alive w -> a < w_next w /\ is_Some (w_actors w !! a)) ->
    reachable (init_state w)
| reach_step s s' : reachable s -> step s s' -> reachable s'.

(** ** Invariants of reachable states *)

(** The world [w'] is [w] after spawning actors only (and attaching the new
    ones): old handles keep their record and validity, new handles are the
    ones between the two counters and all have a record. *)
Definition world_grows (w w' : World) : Prop :=
  w_exists w' = w_exists w /\ w_can_spawn w' = w_can_spawn w /\ w_ncomps w' = w_ncomps w /\
  w_next w <= w_next w' /\
  (forall a, a ∈ w_alive w' <-> a ∈ w_alive w \/ w_next w <= a < w_next w') /\
  (forall a, a < w_next w -> w_actors w' !! a = w_actors w !! a) /\
  (forall a, w_next w <= a < w_next w' -> is_Some (w_actors w' !! a)).

Record Inv (s : State) : Prop := {
  inv_nodup : forall c l, ObjectPools s !! c = Some l -> NoDup l;
  inv_owner : forall c l a, ObjectPools s !! c = Some l -> a ∈ l -> ActorToClassMap s !! a = Some c;
  inv_owned_old : forall a c, ActorToClassMap s !! a = Some c -> a < w_next (world s);
  inv_main : forall m, MainPoolRoot s = Some m ->
    m < w_next (world s) /\ ActorToClassMap s !! m = None;
  inv_alive : forall a, a ∈ w_alive (world s) -> a < w_next (world s) /\ is_Some (w_actors (world s) !! a)
}.

(** Steps that are not [Deinitialize]. *)
Inductive step_nd : State -> State -> Prop :=
| nd_spawn cls loc rot pt r s s' :
    SpawnObject cls loc rot pt s = Some (r, s') -> step_nd s s'
| nd_return a s s' :
    ReturnObjectToPool a s = Some (tt, s') -> step_nd s s'
| nd_init cls n pt s s' :
    InitializePool cls n pt s = Some (tt, s') -> step_nd s s'
| nd_ext_destroy a s :
    step_nd s (set_world (DestroyActor (world s) a) s)
| nd_ext_spawn c loc rot a w' s :
    SpawnActor (world s) c loc rot = Some (a, w') -> step_nd s (set_world w' s)
| nd_ext_policy f s :
    step_nd s (set_world (mkWorld (w_exists (world s)) (w_actors (world s)) (w_alive (world s))
                                  (w_next (world s)) f (w_ncomps (world s))) s).

Inductive steps_nd : State -> State -> Prop :=
| steps_refl s : steps_nd s s
| steps_cons s1 s2 s3 : step_nd s1 s2 -> steps_nd s2 s3 -> steps_nd s1 s3.

(** Any run, [Deinitialize] included. *)
Inductive steps : State -> State -> Prop :=
| run_refl s : steps s s
| run_cons s1 s2 s3 : step s1 s2 -> steps s2 s3 -> steps s1 s3.

(** [x] is a destroyed actor: not valid, a handle already allocated, and in
    no pool. *)
Definition gone (x : actor) (s : State) : Prop :=
  (x ∉ w_alive (world s)) /\ x < w_next (world s) /\ forall c, (x ∉ pool_of s c).

(** From [s] to [s'] the handle counter does not go down, every entry of
    [ActorToClassMap] is kept, and an entry is only added for a handle
    allocated in between. *)
Definition owners_extend (s s' : State) : Prop :=
  w_next (world s) <= w_next (world s') /\
  forall y, ActorToClassMap s' !! y = ActorToClassMap s !! y \/
            (ActorToClassMap s !! y = None /\ w_next (world s) <= y < w_next (world s')).

(** ** Lemmas on the pieces of the code *)

Lemma SetActorActive_eq a b s :
  SetActorActive a b s =
  Some (tt, if IsValid (world s) a then set_world (modify_actor (set_active_rec b) (world s) a) s else s).
Proof. unfold SetActorActive, bind, get, put, ret. simpl. by destruct (IsValid _ _). Qed.

Lemma pop_valid_Some v rl x rl' :
  pop_valid v rl = (Some x, rl') ->
  exists sk, rl = sk ++ x :: rl' /\ v x = true /\ Forall (fun y => v y = false) sk.
Proof.
  revert rl'. induction rl as [|y rl IH]; intros rl' H; simpl in H; [done|].
  destruct (v y) eqn:Hy.
  - simplify_eq. exists []. auto.
  - destruct (IH _ H) as (sk & -> & Hx & Hsk). exists (y :: sk). auto.
Qed.

Lemma pop_valid_None v rl rl' :
  pop_valid v rl = (None, rl') -> rl' = [] /\ Forall (fun y => v y = false) rl.
Proof.
  revert rl'. induction rl as [|y rl IH]; intros rl' H; simpl in H; [by simplify_eq|].
  destruct (v y) eqn:Hy; [done|].
  destruct (IH _ H) as [-> Hf]. auto.
Qed.

Lemma take_from_pool_Some v l x rest :
  take_from_pool v l = (Some x, rest) ->
  exists sk, l = rest ++ x :: sk /\ v x = true /\ Forall (fun y => v y = false) sk.
Proof.
  unfold take_from_pool. destruct (pop_valid v (rev l)) as [r rl] eqn:E.
  intros H. simplify_eq.
  destruct (pop_valid_Some _ _ _ _ E) as (sk & Hl & Hx & Hsk).
  exists (rev sk). split; [|split; [done | by apply Forall_rev]].
  rewrite <- (rev_involutive l), Hl. rewrite rev_app_distr. simpl.
  by rewrite <- app_assoc.
Qed.

Lemma take_from_pool_None v l rest :
  take_from_pool v l = (None, rest) -> rest = [] /\ Forall (fun y => v y = false) l.
Proof.
  unfold take_from_pool. destruct (pop_valid v (rev l)) as [r rl] eqn:E.
  intros H. simplify_eq.
  destruct (pop_valid_None _ _ _ E) as [-> Hf]. split; [done|].
  rewrite <- (rev_involutive l). by apply Forall_rev.
Qed.

Lemma take_from_pool_app_last v l x :
  v x = true -> take_from_pool v (l ++ [x]) = (Some x, l).
Proof.
  intros Hx. unfold take_from_pool. rewrite rev_app_distr. simpl.
  rewrite Hx. by rewrite rev_involutive.
Qed.

Lemma world_grows_refl w : world_grows w w.
Proof. repeat split; auto; try lia. intros []; [done | lia]. Qed.

Lemma world_grows_trans w1 w2 w3 :
  world_grows w1 w2 -> world_grows w2 w3 -> world_grows w1 w3.
Proof.
  intros (E1 & C1 & N1 & L1 & A1 & O1 & F1) (E2 & C2 & N2 & L2 & A2 & O2 & F2).
  repeat split; try congruence; try lia.
  - intros Ha. apply A2 in Ha as [Ha|Ha]; [apply A1 in Ha as [?|?]|]; auto; right; lia.
  - intros [Ha|Ha].
    + apply A2. left. apply A1. auto.
    + apply A2. destruct (decide (a < w_next w2)); [left; apply A1; right; lia | right; lia].
  - intros a Ha. rewrite O2 by lia. auto.
  - intros a Ha. destruct (decide (a < w_next w2)).
    + rewrite O2 by lia. apply F1. lia.
    + apply F2. lia.
Qed.

Lemma SpawnActor_Some w c loc rot a w' :
  SpawnActor w c loc rot = Some (a, w') ->
  w_can_spawn w c = true /\ a = w_next w /\ w_next w' = S a /\ world_grows w w' /\
  w_actors w' !! a = Some (mkActor c false true true (repeat true (w_ncomps w c)) loc rot None) /\
  w_alive w' = {[a]} ∪ w_alive w.
Proof.
  unfold SpawnActor. destruct (w_can_spawn w c) eqn:Hc; intros H; [|done]. simplify_eq. simpl.
  split; [done|]. split; [done|]. split; [done|]. split; [|split; [apply lookup_insert_eq | done]].
  repeat split; simpl; try lia.
  - intros Ha. apply elem_of_union in Ha as [Ha|Ha]; [apply elem_of_singleton in Ha; right; lia | auto].
  - intros [Ha|Ha]; apply elem_of_union; [right; done | left; apply elem_of_singleton; lia].
  - intros b Hb. rewrite lookup_insert_ne by lia. done.
  - intros b Hb. assert (b = w_next w) as -> by lia. rewrite lookup_insert_eq. eauto.
Qed.

Lemma modify_actor_alive f w a : w_alive (modify_actor f w a) = w_alive w.
Proof. done. Qed.

Lemma modify_actor_next f w a : w_next (modify_actor f w a) = w_next w.
Proof. done. Qed.

Lemma modify_actor_lookup f w a b :
  w_actors (modify_actor f w a) !! b = if decide (a = b) then f <$> w_actors w !! b else w_actors w !! b.
Proof. simpl. rewrite lookup_alter. case_decide; by subst. Qed.

Lemma modify_actor_is_Some f w a b :
  is_Some (w_actors (modify_actor f w a) !! b) <-> is_Some (w_actors w !! b).
Proof. rewrite modify_actor_lookup. case_decide; [apply fmap_is_Some | done]. Qed.

Lemma modify_actor_grows f w w1 a :
  world_grows w w1 -> w_next w <= a -> world_grows w (modify_actor f w1 a).
Proof.
  intros (E1 & C1 & N1 & L1 & A1 & O1 & F1) Ha.
  repeat split; simpl; try done.
  - intros Hb. by apply A1.
  - intros Hb. by apply A1.
  - intros b Hb. rewrite lookup_alter_ne by lia. auto.
  - intros b Hb. apply (modify_actor_is_Some f w1 a b). auto.
Qed.

Lemma DestroyActor_alive w a b : b ∈ w_alive (DestroyActor w a) <-> b ∈ w_alive w /\ b <> a.
Proof. simpl. set_solver. Qed.

Lemma spawn_root_Some s r s' :
  spawn_root s = Some (r, s') ->
  exists w', SpawnActor (world s) AActor_StaticClass ZeroVector ZeroRotator = Some (r, w') /\
             s' = set_world w' s.
Proof.
  unfold spawn_root, bind, get, put, ret, crash. simpl.
  destruct (SpawnActor _ _ _ _) as [[a w']|]; intros H; [|done]. simplify_eq. eauto.
Qed.

Lemma create_pool_root_frame pt s r s' :
  create_pool_root pt s = Some (r, s') ->
  ObjectPools s' = ObjectPools s /\ ActorToClassMap s' = ActorToClassMap s /\
  warnings s' = warnings s /\ MainPoolRoot s' = MainPoolRoot s /\
  world_grows (world s) (world s').
Proof.
  unfold create_pool_root, bind at 1.
  destruct (spawn_root s) as [[nr s1]|] eqn:Hs; [|done].
  apply spawn_root_Some in Hs as (w' & Hsp & ->).
  apply SpawnActor_Some in Hsp as (_ & -> & Hn & Hg & _).
  unfold bind, get, modify, ret. simpl.
  intros H. destruct (MainPoolRoot s) as [mr|] eqn:Em; simpl in H; simplify_eq; simpl;
    (split; [done|]); (split; [done|]); (split; [done|]); (split; [done|]).
  - apply modify_actor_grows; [done | lia].
  - done.
Qed.

Lemma GetOrCreatePoolRoot_frame pt s r s' :
  GetOrCreatePoolRoot pt s = Some (r, s') ->
  ObjectPools s' = ObjectPools s /\ ActorToClassMap s' = ActorToClassMap s /\
  warnings s' = warnings s /\ world_grows (world s) (world s') /\
  (forall m, MainPoolRoot s' = Some m ->
     MainPoolRoot s = Some m \/ w_next (world s) <= m < w_next (world s')).
Proof.
  unfold GetOrCreatePoolRoot, bind at 1, get at 1.
  destruct (negb (w_exists (world s))).
  { unfold ret. intros H. simplify_eq. split_and!; auto using world_grows_refl. }
  (* the main root *)
  assert (forall s1, (if IsValidPtr (world s) (MainPoolRoot s) then ret tt
                      else bind spawn_root (fun r => modify (set_main (Some r)))) s = Some (tt, s1) ->
     ObjectPools s1 = ObjectPools s /\ ActorToClassMap s1 = ActorToClassMap s /\
     warnings s1 = warnings s /\ world_grows (world s) (world s1) /\
     (forall m, MainPoolRoot s1 = Some m ->
        MainPoolRoot s = Some m \/ w_next (world s) <= m < w_next (world s1))) as Hmain.
  { intros s1. destruct (IsValidPtr _ _).
    - unfold ret. intros H. simplify_eq. split_and!; auto using world_grows_refl.
    - unfold bind. destruct (spawn_root s) as [[nr s2]|] eqn:Hs; [|done].
      apply spawn_root_Some in Hs as (w' & Hsp & ->).
      apply SpawnActor_Some in Hsp as (_ & -> & Hn & Hg & _).
      unfold modify. intros H. simplify_eq. simpl. split_and!; auto.
      intros m Hm. simplify_eq. right. lia. }
  unfold bind at 1.
  destruct ((if IsValidPtr (world s) (MainPoolRoot s) then ret tt
             else bind spawn_root (fun r => modify (set_main (Some r)))) s) as [[[] s1]|] eqn:E1;
    [|done].
  destruct (Hmain s1 eq_refl) as (P1 & C1 & W1 & G1 & M1).
  cbn [bind get].
  assert (forall r s2, create_pool_root pt s1 = Some (r, s2) ->
     ObjectPools s2 = ObjectPools s /\ ActorToClassMap s2 = ActorToClassMap s /\
     warnings s2 = warnings s /\ world_grows (world s) (world s2) /\
     (forall m, MainPoolRoot s2 = Some m ->
        MainPoolRoot s = Some m \/ w_next (world s) <= m < w_next (world s2))) as Hcr.
  { intros r2 s2 H. apply create_pool_root_frame in H as (P2 & C2 & W2 & M2 & G2).
    split_and!; try congruence.
    - eapply world_grows_trans; eauto.
    - intros m Hm. rewrite M2 in Hm. destruct (M1 m Hm) as [?|?]; [by left|right].
      destruct G2 as (_ & _ & _ & ? & _). lia. }
  destruct (PoolRoots s1 !! pt) as [rt|].
  - destruct (IsValid (world s1) rt); [|apply Hcr].
    unfold ret. intros H. simplify_eq. auto.
  - apply Hcr.
Qed.

(** The state after the [FindOrAdd] and the [while] loop of [SpawnObject]. *)
Definition popped_state (c : uclass) (s : State) : State :=
  set_pools (<[c := snd (take_from_pool (IsValid (world s)) (pool_of s c))]> (ObjectPools s)) s.

(** The last two statements of [SpawnObject] on the host world. *)
Definition place_and_activate (loc : FVector) (rot : FRotator) (w : World) (a : actor) : World :=
  modify_actor (set_active_rec true) (modify_actor (set_loc_rot loc rot) w a) a.

Lemma pool_of_insert_eq s c l : pool_of (set_pools (<[c := l]> (ObjectPools s)) s) c = l.
Proof. unfold pool_of. simpl. by rewrite lookup_insert_eq. Qed.

Lemma pool_of_set_pools_insert s c l (P : gmap uclass (list actor)) :
  pool_of (set_pools (<[c := l]> P) s) c = l.
Proof. unfold pool_of. simpl. by rewrite lookup_insert_eq. Qed.

Lemma IsValid_modify_actor f w a b : IsValid (modify_actor f w a) b = IsValid w b.
Proof. done. Qed.

Lemma set_pools_insert_twice s c l l' :
  set_pools (<[c := l]> (ObjectPools (set_pools (<[c := l']> (ObjectPools s)) s)))
            (set_pools (<[c := l']> (ObjectPools s)) s) =
  set_pools (<[c := l]> (ObjectPools s)) s.
Proof. destruct s. simpl. by rewrite insert_insert_eq. Qed.

Lemma set_world_set_world w w' s : set_world w (set_world w' s) = set_world w s.
Proof. by destruct s. Qed.

Lemma SpawnObject_cases c loc rot pt s r s' :
  SpawnObject (Some c) loc rot pt s = Some (r, s') ->
  (w_exists (world s) = false /\ r = None /\ s' = s) \/
  (w_exists (world s) = true /\
   ((exists a, fst (take_from_pool (IsValid (world s)) (pool_of s c)) = Some a /\
               r = Some a /\ s' = set_world (place_and_activate loc rot (world s) a) (popped_state c s)) \/
    (fst (take_from_pool (IsValid (world s)) (pool_of s c)) = None /\
     SpawnActor (world s) c loc rot = None /\ r = None /\ s' = popped_state c s) \/
    (exists a w' rt s1,
       fst (take_from_pool (IsValid (world s)) (pool_of s c)) = None /\
       SpawnActor (world s) c loc rot = Some (a, w') /\
       GetOrCreatePoolRoot pt (set_classmap (<[a := c]> (ActorToClassMap s))
                                 (set_world w' (popped_state c s))) = Some (rt, s1) /\
       r = Some a /\
       s' = set_world (place_and_activate loc rot
                         (match rt with
                          | Some x => modify_actor (set_parent x) (world s1) a
                          | None => world s1 end) a) s1))).
Proof.
  unfold SpawnObject. unfold bind at 1, get at 1.
  destruct (w_exists (world s)) eqn:Hw; simpl.
  2:{ unfold ret. intros H. simplify_eq. auto. }
  unfold bind, get, modify, ret, put.
  cbn -[GetOrCreatePoolRoot SetActorActive take_from_pool SpawnActor IsValid pool_of].
  rewrite pool_of_insert_eq. change (world (set_pools ?p s)) with (world s).
  unfold popped_state.
  destruct (take_from_pool (IsValid (world s)) (pool_of s c)) as [[a|] rest] eqn:Ht;
    rewrite set_pools_insert_twice; simpl.
  - rewrite SetActorActive_eq. simpl.
    destruct (take_from_pool_Some _ _ _ _ Ht) as (sk & _ & Hva & _).
    rewrite IsValid_modify_actor, Hva, set_world_set_world.
    intros H. simplify_eq. right. split; [done|]. left. by exists a.
  - destruct (SpawnActor (world s) c loc rot) as [[a w']|] eqn:Hsp; simpl.
    + destruct (GetOrCreatePoolRoot pt _) as [[rt s1]|] eqn:Hg; [|done].
      assert (IsValid (world s1) a = true) as Hva.
      { apply GetOrCreatePoolRoot_frame in Hg as (_ & _ & _ & (_ & _ & _ & _ & Ha & _) & _).
        apply SpawnActor_Some in Hsp as (_ & _ & _ & _ & _ & Hal).
        unfold IsValid. apply bool_decide_eq_true. apply Ha. left. simpl. set_solver. }
      intros H. right. split; [done|]. right. right.
      destruct rt as [x|]; simpl in H; rewrite SetActorActive_eq in H;
        cbn [world set_world] in H; rewrite ?IsValid_modify_actor, Hva in H; simplify_eq;
        (eexists a, w', _, s1; split_and!; [done | done | exact Hg | done |]);
        by rewrite !set_world_set_world.
    + unfold ret. intros H. simplify_eq. right. split; [done|]. right. left.
      destruct (take_from_pool_None _ _ _ Ht) as [-> _]. done.
Qed.

(** The state [ReturnObjectToPool a] leaves. *)
Definition returned_state (a : actor) (s : State) : State :=
  if IsValid (world s) a then
    match ActorToClassMap s !! a with
    | Some c =>
      set_pools (<[c := AddUnique a (pool_of s c)]> (ObjectPools s))
                (set_world (modify_actor (set_active_rec false) (world s) a) s)
    | None => set_world (DestroyActor (world s) a) (add_warning a s)
    end
  else s.

Lemma ReturnObjectToPool_eq a s : ReturnObjectToPool a s = Some (tt, returned_state a s).
Proof.
  unfold ReturnObjectToPool, returned_state, bind, get, ret, modify.
  destruct (IsValid (world s) a) eqn:Hv; simpl; [|done].
  destruct (ActorToClassMap s !! a) as [c|]; [|done].
  rewrite SetActorActive_eq, Hv. done.
Qed.

Lemma destroy_valid_alive w l a :
  a ∈ w_alive (destroy_valid w l) <-> a ∈ w_alive w /\ a ∉ l.
Proof.
  revert w. induction l as [|b l IH]; intros w; simpl.
  - set_solver.
  - rewrite IH. unfold IsValid. case_bool_decide; [rewrite DestroyActor_alive|]; set_solver.
Qed.

Lemma destroy_valid_fields w l :
  w_exists (destroy_valid w l) = w_exists w /\ w_actors (destroy_valid w l) = w_actors w /\
  w_next (destroy_valid w l) = w_next w /\ w_can_spawn (destroy_valid w l) = w_can_spawn w /\
  w_ncomps (destroy_valid w l) = w_ncomps w.
Proof.
  revert w. induction l as [|b l IH]; intros w; simpl; [done|].
  destruct (IH (if IsValid w b then DestroyActor w b else w)) as (? & ? & ? & ? & ?).
  destruct (IsValid w b); simpl in *; split_and!; congruence.
Qed.

Lemma destroy_pools_alive w ps a :
  a ∈ w_alive (destroy_pools w ps) <-> a ∈ w_alive w /\ (forall c l, (c, l) ∈ ps -> a ∉ l).
Proof.
  revert w. induction ps as [|[c l] ps IH]; intros w; simpl.
  - split; [intros H; split; [done|]; intros ?? Hin; by apply elem_of_nil in Hin | tauto].
  - rewrite IH, destroy_valid_alive. split.
    + intros [[Ha Hl] Hps]. split; [done|]. intros c' l' Hin.
      apply elem_of_cons in Hin as [Heq|Hin]; [by simplify_eq | eauto].
    + intros [Ha Hps]. split_and!; [done | apply (Hps c); left |].
      intros c' l' Hin. apply (Hps c'). by right.
Qed.

Lemma destroy_pools_fields w ps :
  w_exists (destroy_pools w ps) = w_exists w /\ w_actors (destroy_pools w ps) = w_actors w /\
  w_next (destroy_pools w ps) = w_next w /\ w_can_spawn (destroy_pools w ps) = w_can_spawn w /\
  w_ncomps (destroy_pools w ps) = w_ncomps w.
Proof.
  revert w. induction ps as [|[c l] ps IH]; intros w; simpl; [done|].
  destruct (IH (destroy_valid w l)) as (? & ? & ? & ? & ?).
  destruct (destroy_valid_fields w l) as (? & ? & ? & ? & ?). split_and!; congruence.
Qed.

(** The state [Deinitialize] leaves. *)
Definition deinit_state (s : State) : State :=
  let w := destroy_pools (world s) (map_to_list (ObjectPools s)) in
  let s1 := set_roots ∅ (set_classmap ∅ (set_pools ∅ (set_world w s))) in
  match MainPoolRoot s with
  | Some m => if IsValid w m then set_main None (set_world (DestroyActor w m) s1) else s1
  | None => s1
  end.

Lemma Deinitialize_eq s : Deinitialize s = Some (tt, deinit_state s).
Proof.
  unfold Deinitialize, deinit_state, bind, get, put, modify, ret. simpl.
  destruct (MainPoolRoot s) as [m|]; [|done].
  destruct (IsValid _ m); done.
Qed.

Lemma AddUnique_NoDup x l : NoDup l -> NoDup (AddUnique x l).
Proof.
  unfold AddUnique. case_bool_decide; [done|]. intros Hl.
  apply NoDup_app. split_and!; [done | | apply NoDup_singleton].
  intros y Hy Hy'. apply list_elem_of_singleton in Hy'. subst. done.
Qed.

Lemma elem_of_AddUnique x y l : y ∈ AddUnique x l <-> y ∈ l \/ y = x.
Proof.
  unfold AddUnique. case_bool_decide.
  - split; [auto|]. intros [Hy|Hy]; [done | by subst].
  - rewrite elem_of_app, list_elem_of_singleton. done.
Qed.

Lemma AddUnique_not_in x l : x ∉ l -> AddUnique x l = l ++ [x].
Proof. intros H. unfold AddUnique. by rewrite bool_decide_eq_false_2. Qed.

(** ** Preservation of [Inv] *)

Definition same_shape (w w' : World) : Prop :=
  w_next w' = w_next w /\ w_alive w' = w_alive w /\
  (forall b, is_Some (w_actors w' !! b) <-> is_Some (w_actors w !! b)).

Lemma same_shape_refl w : same_shape w w.
Proof. split_and!; done. Qed.

Lemma same_shape_modify f w w' a : same_shape w w' -> same_shape w (modify_actor f w' a).
Proof.
  intros (Hn & Ha & Hs). split_and!; [done | done |].
  intros b. rewrite modify_actor_is_Some. apply Hs.
Qed.

Lemma same_shape_place loc rot w w' a : same_shape w w' -> same_shape w (place_and_activate loc rot w' a).
Proof. intros H. unfold place_and_activate. by do 2 apply same_shape_modify. Qed.

Lemma Inv_same_shape s w : Inv s -> same_shape (world s) w -> Inv (set_world w s).
Proof.
  intros [I1 I2 I3 I4 I5] (Hn & Ha & Hs). split; simpl; try done.
  - intros a c H. rewrite Hn. eauto.
  - intros m H. rewrite Hn. auto.
  - intros a H. rewrite Hn, Hs. rewrite Ha in H. auto.
Qed.

Lemma pool_of_Some s c l : ObjectPools s !! c = Some l -> pool_of s c = l.
Proof. unfold pool_of. by intros ->. Qed.

Lemma Inv_pool_nodup s c : Inv s -> NoDup (pool_of s c).
Proof.
  intros HI. unfold pool_of. destruct (ObjectPools s !! c) eqn:E; simpl;
    [by eapply inv_nodup | constructor].
Qed.

Lemma Inv_pool_owner s c a : Inv s -> a ∈ pool_of s c -> ActorToClassMap s !! a = Some c.
Proof.
  intros HI. unfold pool_of. destruct (ObjectPools s !! c) eqn:E; simpl;
    [by eapply inv_owner | intros H; by apply elem_of_nil in H].
Qed.

Lemma take_from_pool_rest v l r rest :
  take_from_pool v l = (r, rest) -> (forall y, y ∈ rest -> y ∈ l) /\ (NoDup l -> NoDup rest).
Proof.
  destruct r as [x|]; intros H.
  - destruct (take_from_pool_Some _ _ _ _ H) as (sk & -> & _ & _). split.
    + intros y Hy. apply elem_of_app. by left.
    + intros Hn. by apply NoDup_app in Hn as (? & _ & _).
  - destruct (take_from_pool_None _ _ _ H) as [-> _]. split; [|constructor].
    intros y Hy. by apply elem_of_nil in Hy.
Qed.

Lemma Inv_popped c s : Inv s -> Inv (popped_state c s).
Proof.
  intros HI. pose proof HI as [I1 I2 I3 I4 I5]. unfold popped_state.
  destruct (take_from_pool (IsValid (world s)) (pool_of s c)) as [r rest] eqn:Ht. simpl.
  destruct (take_from_pool_rest _ _ _ _ Ht) as [Hsub Hnd].
  split; simpl; try done.
  - intros c' l Hl. rewrite lookup_insert in Hl. case_decide; simplify_eq.
    + apply Hnd. by apply Inv_pool_nodup.
    + eauto.
  - intros c' l a Hl Ha. rewrite lookup_insert in Hl. case_decide; simplify_eq.
    + apply Inv_pool_owner; auto.
    + eauto.
Qed.

Lemma Inv_GetOrCreatePoolRoot pt s r s' : Inv s -> GetOrCreatePoolRoot pt s = Some (r, s') -> Inv s'.
Proof.
  intros [I1 I2 I3 I4 I5] H.
  apply GetOrCreatePoolRoot_frame in H as (HP & HC & _ & (_ & _ & _ & Hn & Ha & Ho & Hf) & HM).
  split; rewrite ?HP, ?HC; try done.
  - intros a c Hac. specialize (I3 _ _ Hac). lia.
  - intros m Hm. destruct (HM m Hm) as [Hm'|Hm'].
    + destruct (I4 m Hm'). split; [lia | done].
    + split; [lia|]. destruct (ActorToClassMap s !! m) eqn:E; [|done].
      specialize (I3 _ _ E). lia.
  - intros a Hal. apply Ha in Hal as [Hal|Hal].
    + destruct (I5 a Hal). rewrite Ho by done. split; [lia | done].
    + split; [lia|]. apply Hf. lia.
Qed.

Lemma Inv_SpawnObject cls loc rot pt s r s' :
  Inv s -> SpawnObject cls loc rot pt s = Some (r, s') -> Inv s'.
Proof.
  intros HI H. destruct cls as [c|].
  2:{ unfold SpawnObject, ret in H. by simplify_eq. }
  apply SpawnObject_cases in H as [(_ & _ & ->) | (_ & Hc)]; [done|].
  destruct Hc as [(a & _ & _ & ->) | [(_ & _ & _ & ->) | (a & w' & rt & s1 & _ & Hsp & Hg & _ & ->)]].
  - apply Inv_same_shape; [by apply Inv_popped|]. apply same_shape_place, same_shape_refl.
  - by apply Inv_popped.
  - apply Inv_same_shape.
    2:{ apply same_shape_place. destruct rt; [apply same_shape_modify|]; apply same_shape_refl. }
    eapply Inv_GetOrCreatePoolRoot; [|exact Hg].
    apply SpawnActor_Some in Hsp as (_ & -> & Hn & (_ & _ & _ & _ & _ & Ho & _) & Hr & Hal).
    pose proof (Inv_popped c s HI) as [I1 I2 I3 I4 I5].
    split; simpl in *.
    + done.
    + intros c' l b Hl Hb. rewrite lookup_insert_ne; [eauto|].
      specialize (I3 _ _ (I2 _ _ _ Hl Hb)). lia.
    + intros b c' Hb. rewrite Hn. rewrite lookup_insert in Hb. case_decide; [lia|].
      specialize (I3 _ _ Hb). lia.
    + intros m Hm. destruct (I4 m Hm). rewrite Hn, lookup_insert_ne by lia. split; [lia | done].
    + intros b Hb. rewrite Hal in Hb. apply elem_of_union in Hb as [Hb|Hb].
      * rewrite elem_of_singleton in Hb. rewrite Hb, Hn, Hr. split; [lia | eauto].
      * destruct (I5 b Hb). rewrite Hn, Ho by done. split; [lia | done].
Qed.

Lemma Inv_Return a s : Inv s -> Inv (returned_state a s).
Proof.
  intros HI. pose proof HI as [I1 I2 I3 I4 I5]. unfold returned_state.
  destruct (IsValid (world s) a) eqn:Hv; [|done].
  destruct (ActorToClassMap s !! a) as [c|] eqn:Hc.
  - split; simpl; try done.
    + intros c' l Hl. rewrite lookup_insert in Hl. case_decide; simplify_eq; [|eauto].
      apply AddUnique_NoDup, Inv_pool_nodup, HI.
    + intros c' l b Hl Hb. rewrite lookup_insert in Hl. case_decide; simplify_eq; [|eauto].
      apply elem_of_AddUnique in Hb as [Hb|Hb]; [by apply Inv_pool_owner | by subst].
    + intros b Hb. pose proof (modify_actor_is_Some (set_active_rec false) (world s) a b) as Hs.
      simpl in Hs. rewrite Hs. auto.
  - split; simpl; try done.
    intros b Hb. apply DestroyActor_alive in Hb as [Hb _]. auto.
Qed.

Lemma Inv_InitializePool_loop c pt n s s' :
  Inv s -> InitializePool_loop c pt n s = Some (tt, s') -> Inv s'.
Proof.
  revert s. induction n as [|n IH]; intros s HI H; cbn [InitializePool_loop] in H.
  - unfold ret in H. by simplify_eq.
  - unfold bind in H at 1.
    destruct (SpawnObject (Some c) ZeroVector ZeroRotator pt s) as [[r s1]|] eqn:Hs; [|done].
    apply Inv_SpawnObject in Hs; [|done].
    unfold bind in H. destruct r as [a|].
    + rewrite ReturnObjectToPool_eq in H. apply IH in H; [done|]. by apply Inv_Return.
    + unfold ret in H. by apply IH in H.
Qed.

Lemma Inv_InitializePool cls n pt s s' :
  Inv s -> InitializePool cls n pt s = Some (tt, s') -> Inv s'.
Proof.
  destruct cls as [c|]; simpl; [apply Inv_InitializePool_loop|].
  unfold ret. intros ? H. by simplify_eq.
Qed.

Lemma Inv_Deinitialize s : Inv s -> Inv (deinit_state s).
Proof.
  intros [I1 I2 I3 I4 I5]. unfold deinit_state.
  destruct (destroy_pools_fields (world s) (map_to_list (ObjectPools s))) as (_ & Ha & Hn & _ & _).
  assert (forall b, b ∈ w_alive (destroy_pools (world s) (map_to_list (ObjectPools s))) ->
            b < w_next (world s) /\ is_Some (w_actors (world s) !! b)) as Hal.
  { intros b Hb. apply destroy_pools_alive in Hb as [Hb _]. auto. }
  destruct (MainPoolRoot s) as [m|] eqn:Hm; [destruct (IsValid _ m)|];
    split; simpl; rewrite ?Hn, ?Ha; try done; try (intros; by rewrite lookup_empty in *).
  - intros b Hb. apply DestroyActor_alive in Hb as [Hb _]. auto.
  - intros m' Hm'. rewrite Hm in Hm'. destruct (I4 m' Hm') as [? _]. split; [done | apply lookup_empty].
  - intros m' Hm'. rewrite Hm in Hm'. destruct (I4 m' Hm') as [? _]. split; [done | apply lookup_empty].
Qed.

Lemma Inv_step s s' : Inv s -> step s s' -> Inv s'.
Proof.
  intros HI Hst. destruct Hst as [cls loc rot pt r s s' H | a s s' H | cls n pt s s' H | s s' H
                                 | a s | c loc rot a w' s Hsp | f s].
  - eapply Inv_SpawnObject; eauto.
  - rewrite ReturnObjectToPool_eq in H. simplify_eq. by apply Inv_Return.
  - eapply Inv_InitializePool; eauto.
  - rewrite Deinitialize_eq in H. simplify_eq. by apply Inv_Deinitialize.
  - destruct HI as [I1 I2 I3 I4 I5]. split; simpl; try done.
    intros b Hb. apply DestroyActor_alive in Hb as [Hb _]. auto.
  - destruct HI as [I1 I2 I3 I4 I5].
    apply SpawnActor_Some in Hsp as (_ & -> & Hn & (_ & _ & _ & _ & Ha & Ho & Hf) & _ & _).
    split; simpl; rewrite ?Hn; try done.
    + intros b c' Hb. specialize (I3 _ _ Hb). lia.
    + intros m Hm. destruct (I4 m Hm). split; [lia | done].
    + intros b Hb. apply Ha in Hb as [Hb|Hb].
      * destruct (I5 b Hb). rewrite Ho by done. split; [lia | done].
      * split; [lia|]. apply Hf. lia.
  - apply (Inv_same_shape s); [done|]. split_and!; done.
Qed.

Lemma reachable_Inv s : reachable s -> Inv s.
Proof.
  induction 1 as [w Hw | s s' _ IH Hst].
  - split; simpl; try done; intros *; rewrite ?lookup_empty; done.
  - eapply Inv_step; eauto.
Qed.

Lemma step_nd_step s s' : step_nd s s' -> step s s'.
Proof.
  destruct 1; [eapply step_spawn | eapply step_return | eapply step_init
              | apply step_ext_destroy | eapply step_ext_spawn | apply step_ext_policy]; eauto.
Qed.

Lemma steps_nd_reachable s s' : reachable s -> steps_nd s s' -> reachable s'.
Proof.
  intros Hr Hs. induction Hs as [s | s1 s2 s3 H12 _ IH]; [done|].
  apply IH. eapply reach_step; [done|]. by apply step_nd_step.
Qed.

Lemma take_from_pool_all_invalid v l :
  Forall (fun y => v y = false) l -> take_from_pool v l = (None, []).
Proof.
  intros Hl. unfold take_from_pool.
  assert (forall rl, Forall (fun y => v y = false) rl -> pop_valid v rl = (None, [])) as Hp.
  { induction rl as [|y rl IH]; intros Hf; [done|]. inversion Hf; subst. simpl.
    rewrite H1. auto. }
  rewrite Hp; [done|]. by apply Forall_rev.
Qed.

(** [SpawnObject] run forward when the pool holds a valid actor. *)
Lemma SpawnObject_reuse c loc rot pt s a rest :
  w_exists (world s) = true ->
  take_from_pool (IsValid (world s)) (pool_of s c) = (Some a, rest) ->
  SpawnObject (Some c) loc rot pt s =
  Some (Some a, set_world (place_and_activate loc rot (world s) a)
                          (set_pools (<[c := rest]> (ObjectPools s)) s)).
Proof.
  intros Hw Ht. unfold SpawnObject. unfold bind at 1, get at 1. rewrite Hw. simpl.
  unfold bind, get, modify, ret, put.
  cbn -[GetOrCreatePoolRoot SetActorActive take_from_pool SpawnActor IsValid pool_of].
  rewrite pool_of_insert_eq. change (world (set_pools ?p s)) with (world s).
  rewrite Ht, set_pools_insert_twice. simpl.
  destruct (take_from_pool_Some _ _ _ _ Ht) as (sk & _ & Hva & _).
  rewrite SetActorActive_eq. simpl. rewrite IsValid_modify_actor, Hva, set_world_set_world.
  done.
Qed.

(** [SpawnObject] run forward when the pool holds no valid actor and the
    host refuses to spawn. *)
Lemma SpawnObject_refused c loc rot pt s :
  w_exists (world s) = true ->
  w_can_spawn (world s) c = false ->
  Forall (fun y => IsValid (world s) y = false) (pool_of s c) ->
  SpawnObject (Some c) loc rot pt s = Some (None, set_pools (<[c := []]> (ObjectPools s)) s).
Proof.
  intros Hw Hc Hf. unfold SpawnObject. unfold bind at 1, get at 1. rewrite Hw. simpl.
  unfold bind, get, modify, ret, put.
  cbn -[GetOrCreatePoolRoot SetActorActive take_from_pool SpawnActor IsValid pool_of].
  rewrite pool_of_insert_eq. change (world (set_pools ?p s)) with (world s).
  rewrite take_from_pool_all_invalid by done. rewrite set_pools_insert_twice. simpl.
  unfold SpawnActor. rewrite Hc. done.
Qed.

Lemma IsValid_false w a : IsValid w a = false <-> a ∉ w_alive w.
Proof. unfold IsValid. by rewrite bool_decide_eq_false. Qed.

Lemma IsValid_true w a : IsValid w a = true <-> a ∈ w_alive w.
Proof. unfold IsValid. by rewrite bool_decide_eq_true. Qed.

Lemma place_and_activate_alive loc rot w a : w_alive (place_and_activate loc rot w a) = w_alive w.
Proof. done. Qed.

Lemma place_and_activate_lookup loc rot w a r :
  w_actors w !! a = Some r ->
  w_actors (place_and_activate loc rot w a) !! a = Some (set_active_rec true (set_loc_rot loc rot r)).
Proof. intros H. unfold place_and_activate. simpl. by rewrite !lookup_alter_eq, H. Qed.

(** Where the actor handed out by [SpawnObject] comes from. *)
Lemma SpawnObject_source c loc rot pt s x s' :
  SpawnObject (Some c) loc rot pt s = Some (Some x, s') ->
  w_exists (world s) = true /\ w_exists (world s') = true /\ x ∈ w_alive (world s') /\
  (forall c', c' <> c -> ObjectPools s' !! c' = ObjectPools s !! c') /\
  ((exists kept skipped,
      pool_of s c = kept ++ x :: skipped /\ x ∈ w_alive (world s) /\
      Forall (fun y => y ∉ w_alive (world s)) skipped /\ pool_of s' c = kept /\
      ActorToClassMap s' = ActorToClassMap s /\ w_alive (world s') = w_alive (world s)) \/
   (Forall (fun y => y ∉ w_alive (world s)) (pool_of s c) /\ pool_of s' c = [] /\
    x = w_next (world s) /\ ActorToClassMap s' = <[x := c]> (ActorToClassMap s) /\
    world_grows (world s) (world s') /\ w_next (world s) < w_next (world s'))).
Proof.
  intros H. apply SpawnObject_cases in H as [(_ & Hr & _) | (Hw & Hc)]; [done|].
  destruct Hc as [(a & Ht & Hr & ->) | [(_ & _ & Hr & _) | (a & w' & rt & s1 & Ht & Hsp & Hg & Hr & ->)]];
    simplify_eq.
  - unfold popped_state.
    destruct (take_from_pool (IsValid (world s)) (pool_of s c)) as [r rest] eqn:Ht'. simpl in Ht. subst r.
    destruct (take_from_pool_Some _ _ _ _ Ht') as (sk & Hl & Hva & Hsk).
    split_and!; simpl; try done.
    + by apply IsValid_true.
    + intros c' Hc'. by rewrite lookup_insert_ne.
    + left. exists rest, sk. split_and!; try done.
      * by apply IsValid_true.
      * eapply Forall_impl; [exact Hsk|]. intros y Hy. by apply IsValid_false.
      * unfold pool_of. simpl. by rewrite lookup_insert_eq.
  - apply GetOrCreatePoolRoot_frame in Hg as (HP & HC & _ & Hgr & _).
    pose proof Hsp as Hsp'.
    apply SpawnActor_Some in Hsp as (_ & -> & Hn & Hg1 & _ & Hal).
    unfold popped_state in *.
    destruct (take_from_pool (IsValid (world s)) (pool_of s c)) as [r rest] eqn:Ht'. simpl in Ht, HP, HC. subst r.
    destruct (take_from_pool_None _ _ _ Ht') as [-> Hf].
    assert (world_grows (world s) (world s1)) as Hg2 by (eapply world_grows_trans; eauto).
    assert (world_grows (world s) (place_and_activate loc rot
              match rt with Some x => modify_actor (set_parent x) (world s1) (w_next (world s))
                          | None => world s1 end (w_next (world s)))) as Hg3.
    { unfold place_and_activate. apply modify_actor_grows; [|lia]. apply modify_actor_grows; [|lia].
      destruct rt; [apply modify_actor_grows; [done|lia] | done]. }
    destruct Hg2 as (E2 & _ & _ & L2 & A2 & _ & _).
    split_and!; simpl; try done.
    + destruct rt; simpl; rewrite E2; done.
    + destruct Hgr as (_ & _ & _ & Lg & _). simpl in Lg.
      destruct rt; simpl; apply A2; right; lia.
    + intros c' Hc'. destruct rt; simpl; rewrite HP; by rewrite lookup_insert_ne.
    + right. split_and!.
      * eapply Forall_impl; [exact Hf|]. intros y Hy. by apply IsValid_false.
      * unfold pool_of. destruct rt; simpl; rewrite HP; by rewrite lookup_insert_eq.
      * done.
      * destruct rt; simpl; by rewrite HC.
      * destruct rt; done.
      * destruct Hgr as (_ & _ & _ & Lg & _). simpl in Lg. destruct rt; simpl; lia.
Qed.

Lemma acquire_facts c loc rot pt s x s' :
  Inv s -> SpawnObject (Some c) loc rot pt s = Some (Some x, s') ->
  w_exists (world s') = true /\ x ∈ w_alive (world s') /\
  ActorToClassMap s' !! x = Some c /\ (x ∉ pool_of s' c) /\
  is_Some (w_actors (world s') !! x).
Proof.
  intros HI H. pose proof (Inv_SpawnObject _ _ _ _ _ _ _ HI H) as HI'.
  apply SpawnObject_source in H as (_ & He & Hx & _ & Hsrc).
  split_and!; [done | done | | | by apply (inv_alive s' HI')].
  - destruct Hsrc as [(kept & sk & Hl & _ & _ & _ & HC & _) | (_ & _ & Hxn & HC & _)].
    + rewrite HC. apply (Inv_pool_owner s c x HI). rewrite Hl. apply elem_of_app. right. left.
    + rewrite HC, Hxn. apply lookup_insert_eq.
  - destruct Hsrc as [(kept & sk & Hl & _ & _ & Hp & _) | (_ & Hp & _)]; rewrite Hp.
    + pose proof (Inv_pool_nodup s c HI) as Hnd. rewrite Hl in Hnd.
      apply NoDup_app in Hnd as (_ & Hdis & _). intros Hk. apply (Hdis x Hk). left.
    + intros Hk. by apply elem_of_nil in Hk.
Qed.

(** [ReturnObjectToPool] of a valid actor the pooler owns. *)
Lemma returned_owned a c s :
  a ∈ w_alive (world s) -> ActorToClassMap s !! a = Some c ->
  returned_state a s =
  set_pools (<[c := AddUnique a (pool_of s c)]> (ObjectPools s))
            (set_world (modify_actor (set_active_rec false) (world s) a) s).
Proof.
  intros Ha Hc. unfold returned_state. apply IsValid_true in Ha. by rewrite Ha, Hc.
Qed.

Lemma returned_foreign a s :
  a ∈ w_alive (world s) -> ActorToClassMap s !! a = None ->
  returned_state a s = set_world (DestroyActor (world s) a) (add_warning a s).
Proof.
  intros Ha Hc. unfold returned_state. apply IsValid_true in Ha. by rewrite Ha, Hc.
Qed.

Lemma returned_invalid a s : a ∉ w_alive (world s) -> returned_state a s = s.
Proof. intros Ha. unfold returned_state. apply IsValid_false in Ha. by rewrite Ha. Qed.

(** ** A concrete world for the examples *)

(** An empty world that spawns every class, with two components per actor. *)
Definition w_demo : World := mkWorld true ∅ ∅ 1 (fun _ => true) (fun _ => 2).

(** The same world, refusing to spawn anything. *)
Definition w_refusing : World := mkWorld true ∅ ∅ 1 (fun _ => false) (fun _ => 2).

(** An actor class of the game. *)
Definition BP_Node : uclass := 5.

(** A world where actor [1], of class [9], was placed by someone else. *)
Definition w_foreign : World :=
  mkWorld true {[1 := mkActor 9 false true true [true] ZeroVector ZeroRotator None]} {[1]} 2
          (fun _ => true) (fun _ => 2).

(** ** Examples and further lemmas *)

(** A pool holding a destroyed actor above a valid one. *)
Definition s_stale : State :=
  mkState (mkWorld true ∅ {[1]} 3 (fun _ => true) (fun _ => 0))
          {[BP_Node := [1; 2]]} {[1 := BP_Node; 2 := BP_Node]} ∅ None [].

(** The four flags [SetActorActive b] sets. *)
Definition active_flags (b : bool) (r : ActorRec) : Prop :=
  a_hidden r = negb b /\ a_collision r = b /\ a_tick r = b /\ Forall (fun x => x = b) (a_comps r).

Lemma set_active_rec_flags b r : active_flags b (set_active_rec b r).
Proof.
  unfold active_flags. simpl. split_and!; try done.
  apply Forall_forall. intros x Hx. apply list_elem_of_In in Hx. apply in_map_iff in Hx as (? & <- & _). done.
Qed.

Lemma reachable_demo : reachable (init_state w_demo).
Proof. constructor. intros a Ha. simpl in Ha. set_solver. Qed.

(** A first [SpawnObject] of [BP_Node] in a fresh subsystem. *)
Definition demo_acquire : option (option actor * State) :=
  SpawnObject (Some BP_Node) ZeroVector ZeroRotator GameObjects (init_state w_demo).


(** [InitializePool(BP_Node, 5)] in a fresh subsystem. *)
Definition demo_prewarm : option (unit * State) :=
  InitializePool (Some BP_Node) 5 GameObjects (init_state w_demo).

(** A world that spawns every class but [AActor], the class of the roots. *)
Definition w_noroot : World :=
  mkWorld true ∅ ∅ 1 (fun c => negb (Nat.eqb c AActor_StaticClass)) (fun _ => 2).

(** The category roots are handles the world has allocated and that
    [ActorToClassMap] does not record. *)
Definition roots_ok (s : State) : Prop :=
  forall pt r, PoolRoots s !! pt = Some r -> r < w_next (world s) /\ ActorToClassMap s !! r = None.

(** One iteration of the [for] loop of [InitializePool]. *)
Definition init_cycle (c : uclass) (PoolType : EPoolType) : M unit :=
  r <- SpawnObject (Some c) ZeroVector ZeroRotator PoolType ;;
  match r with Some a => ReturnObjectToPool a | None => ret tt end.

(** Every pooled actor has the record [SetActorActive(false)] leaves. *)
Definition pool_inactive (s : State) : Prop :=
  forall c a, a ∈ pool_of s c -> exists r, w_actors (world s) !! a = Some r /\ active_flags false r.

Lemma set_active_rec_idem b r : set_active_rec b (set_active_rec b r) = set_active_rec b r.
Proof. unfold set_active_rec. simpl. by rewrite map_map. Qed.

(** ** The ownership index over runs without teardown *)

Lemma owners_extend_refl s : owners_extend s s.
Proof. split; [lia | auto]. Qed.

Lemma owners_extend_trans s1 s2 s3 :
  owners_extend s1 s2 -> owners_extend s2 s3 -> owners_extend s1 s3.
Proof.
  intros [L1 H1] [L2 H2]. split; [lia|]. intros y.
  destruct (H1 y) as [E1|(N1 & B1)], (H2 y) as [E2|(N2 & B2)].
  - left. congruence.
  - right. split; [congruence | lia].
  - right. split; [done | lia].
  - right. split; [done | lia].
Qed.

Lemma owners_extend_same s s' :
  w_next (world s) <= w_next (world s') -> ActorToClassMap s' = ActorToClassMap s ->
  owners_extend s s'.
Proof. intros Hn Hc. split; [done|]. intros y. left. by rewrite Hc. Qed.

Lemma SpawnObject_owners cls loc rot pt s r s' :
  Inv s -> SpawnObject cls loc rot pt s = Some (r, s') -> owners_extend s s'.
Proof.
  intros HI H. destruct cls as [c|].
  2:{ unfold SpawnObject, ret in H. simplify_eq. apply owners_extend_refl. }
  apply SpawnObject_cases in H as [(_ & _ & ->) | (_ & Hc)]; [apply owners_extend_refl|].
  destruct Hc as [(a & _ & _ & ->) | [(_ & _ & _ & ->) | (a & w' & rt & s1 & _ & Hsp & Hg & _ & ->)]].
  - apply owners_extend_same; done.
  - apply owners_extend_same; done.
  - apply GetOrCreatePoolRoot_frame in Hg as (_ & HC & _ & Hgr & _).
    apply SpawnActor_Some in Hsp as (_ & -> & Hn & _).
    destruct Hgr as (_ & _ & _ & Lg & _). simpl in HC, Lg.
    assert (w_next (world (set_world (place_and_activate loc rot
              match rt with Some x => modify_actor (set_parent x) (world s1) (w_next (world s))
                          | None => world s1 end (w_next (world s))) s1)) = w_next (world s1)) as Hn'
      by (destruct rt; done).
    split; rewrite Hn'; [lia|]. intros y. simpl. rewrite HC.
    destruct (decide (y = w_next (world s))) as [->|Hne].
    + right. split; [|lia].
      destruct (ActorToClassMap s !! w_next (world s)) eqn:E; [|done].
      apply (inv_owned_old s HI) in E. lia.
    + left. by rewrite lookup_insert_ne.
Qed.

Lemma returned_owners a s : owners_extend s (returned_state a s).
Proof.
  unfold returned_state. destruct (IsValid (world s) a); [|apply owners_extend_refl].
  destruct (ActorToClassMap s !! a); apply owners_extend_same; done.
Qed.

Lemma InitializePool_loop_owners c pt n s s' :
  Inv s -> InitializePool_loop c pt n s = Some (tt, s') -> owners_extend s s'.
Proof.
  revert s. induction n as [|n IH]; intros s HI H; cbn [InitializePool_loop] in H.
  - unfold ret in H. simplify_eq. apply owners_extend_refl.
  - unfold bind in H at 1.
    destruct (SpawnObject (Some c) ZeroVector ZeroRotator pt s) as [[r s1]|] eqn:Hs; [|done].
    pose proof (SpawnObject_owners _ _ _ _ _ _ _ HI Hs) as O1.
    apply Inv_SpawnObject in Hs; [|done].
    unfold bind in H. destruct r as [a|].
    + rewrite ReturnObjectToPool_eq in H.
      eapply owners_extend_trans; [exact O1|].
      eapply owners_extend_trans; [apply returned_owners|].
      apply (IH _ (Inv_Return a s1 Hs) H).
    + unfold ret in H. eapply owners_extend_trans; [exact O1|]. exact (IH _ Hs H).
Qed.

Lemma step_nd_owners s s' : Inv s -> step_nd s s' -> owners_extend s s'.
Proof.
  intros HI Hst. destruct Hst as [cls loc rot pt r s s' H | a s s' H | cls n pt s s' H
                                 | a s | c loc rot a w' s Hsp | f s].
  - eapply SpawnObject_owners; eauto.
  - rewrite ReturnObjectToPool_eq in H. simplify_eq. apply returned_owners.
  - destruct cls as [c|]; simpl in H; [by eapply InitializePool_loop_owners|].
    unfold ret in H. simplify_eq. apply owners_extend_refl.
  - apply owners_extend_same; done.
  - apply SpawnActor_Some in Hsp as (_ & -> & Hn & _). apply owners_extend_same; simpl; [lia | done].
  - apply owners_extend_same; done.
Qed.

Lemma steps_nd_owners s s' : reachable s -> steps_nd s s' -> owners_extend s s'.
Proof.
  intros Hr Hs. induction Hs as [s | s1 s2 s3 H12 _ IH]; [apply owners_extend_refl|].
  eapply owners_extend_trans; [eapply step_nd_owners; [by apply reachable_Inv | exact H12]|].
  apply IH. eapply reach_step; [done|]. by apply step_nd_step.
Qed.

(** ** Destroyed actors stay destroyed *)

Lemma pool_of_set_pools P s c : pool_of (set_pools P s) c = default [] (P !! c).
Proof. done. Qed.

Lemma popped_pool_sub c s c' y : y ∈ pool_of (popped_state c s) c' -> y ∈ pool_of s c'.
Proof.
  unfold popped_state. rewrite pool_of_set_pools, lookup_insert.
  case_decide; [subst | done]. simpl.
  destruct (take_from_pool (IsValid (world s)) (pool_of s c')) as [r rest] eqn:Ht. simpl.
  apply (take_from_pool_rest _ _ _ _ Ht).
Qed.

Lemma SpawnObject_gone cls loc rot pt s r s' x :
  gone x s -> SpawnObject cls loc rot pt s = Some (r, s') -> gone x s'.
Proof.
  intros (Hd & Hn & Hp) H. destruct cls as [c|].
  2:{ unfold SpawnObject, ret in H. simplify_eq. done. }
  apply SpawnObject_cases in H as [(_ & _ & ->) | (_ & Hc)]; [done|].
  destruct Hc as [(a & _ & _ & ->) | [(_ & _ & _ & ->) | (a & w' & rt & s1 & _ & Hsp & Hg & _ & ->)]].
  - split_and!; [done | done |]. intros c' Hin. apply (Hp c'). by apply (popped_pool_sub c s c').
  - split_and!; [done | done |]. intros c' Hin. apply (Hp c'). by apply (popped_pool_sub c s c').
  - apply GetOrCreatePoolRoot_frame in Hg as (HP & _ & _ & Hg2 & _).
    apply SpawnActor_Some in Hsp as (_ & _ & _ & Hg1 & _).
    pose proof (world_grows_trans _ _ _ Hg1 Hg2) as (_ & _ & _ & L & A & _ & _).
    assert (w_alive (world (set_world (place_and_activate loc rot
              match rt with Some y => modify_actor (set_parent y) (world s1) a
                          | None => world s1 end a) s1)) = w_alive (world s1) /\
            w_next (world (set_world (place_and_activate loc rot
              match rt with Some y => modify_actor (set_parent y) (world s1) a
                          | None => world s1 end a) s1)) = w_next (world s1)) as [Ea En]
      by (destruct rt; done).
    split_and!; rewrite ?Ea, ?En.
    + intros Hx. apply A in Hx as [Hx|Hx]; [done | simpl in Hx; lia].
    + simpl in L. lia.
    + intros c' Hin. apply (Hp c'). apply (popped_pool_sub c s c').
      unfold pool_of in *. cbn [ObjectPools set_world] in Hin. rewrite HP in Hin. exact Hin.
Qed.

Lemma returned_gone a s x : gone x s -> gone x (returned_state a s).
Proof.
  intros (Hd & Hn & Hp). unfold returned_state.
  destruct (IsValid (world s) a) eqn:Hv; [|done].
  apply IsValid_true in Hv.
  destruct (ActorToClassMap s !! a) as [c|].
  - split_and!; [done | done |]. intros c' Hin.
    rewrite pool_of_set_pools, lookup_insert in Hin. case_decide; [subst | by apply (Hp c')].
    simpl in Hin. apply elem_of_AddUnique in Hin as [Hin|Hin]; [by apply (Hp c') | subst; done].
  - split_and!; [| done | done]. simpl. set_solver.
Qed.

Lemma InitializePool_loop_gone c pt n s s' x :
  gone x s -> InitializePool_loop c pt n s = Some (tt, s') -> gone x s'.
Proof.
  revert s. induction n as [|n IH]; intros s Hg H; cbn [InitializePool_loop] in H.
  - unfold ret in H. by simplify_eq.
  - unfold bind in H at 1.
    destruct (SpawnObject (Some c) ZeroVector ZeroRotator pt s) as [[r s1]|] eqn:Hs; [|done].
    apply (SpawnObject_gone _ _ _ _ _ _ _ x Hg) in Hs.
    unfold bind in H. destruct r as [a|].
    + rewrite ReturnObjectToPool_eq in H. exact (IH _ (returned_gone a s1 x Hs) H).
    + unfold ret in H. exact (IH _ Hs H).
Qed.

Lemma deinit_gone s x : gone x s -> gone x (deinit_state s).
Proof.
  intros (Hd & Hn & Hp).
  destruct (destroy_pools_fields (world s) (map_to_list (ObjectPools s))) as (_ & _ & En & _ & _).
  assert (x ∉ w_alive (destroy_pools (world s) (map_to_list (ObjectPools s)))) as Hd'.
  { intros Hx. apply destroy_pools_alive in Hx as [Hx _]. done. }
  assert (x ∉ @nil actor) as Hnil by (intros Hx; by apply elem_of_nil in Hx).
  unfold deinit_state. destruct (MainPoolRoot s) as [m|]; [destruct (IsValid _ m)|];
    split_and!; simpl; rewrite ?En; try done;
    try (intros c; unfold pool_of; simpl; rewrite ?lookup_empty; exact Hnil).
  set_solver.
Qed.

Lemma step_gone s s' x : gone x s -> step s s' -> gone x s'.
Proof.
  intros Hg Hst. destruct Hst as [cls loc rot pt r s s' H | a s s' H | cls n pt s s' H | s s' H
                                 | a s | c loc rot a w' s Hsp | f s].
  - eapply SpawnObject_gone; eauto.
  - rewrite ReturnObjectToPool_eq in H. simplify_eq. by apply returned_gone.
  - destruct cls as [c|]; simpl in H; [by eapply InitializePool_loop_gone|].
    unfold ret in H. by simplify_eq.
  - rewrite Deinitialize_eq in H. simplify_eq. by apply deinit_gone.
  - destruct Hg as (Hd & Hn & Hp). split_and!; [simpl; set_solver | done | done].
  - destruct Hg as (Hd & Hn & Hp).
    apply SpawnActor_Some in Hsp as (_ & -> & Hn' & _ & _ & Hal).
    unfold gone. simpl. rewrite ?Hal, ?Hn'. split_and!; [| lia | done].
    rewrite elem_of_union, elem_of_singleton. intros [Hx|Hx]; [lia | done].
  - done.
Qed.

Lemma steps_gone s s' x : gone x s -> steps s s' -> gone x s'.
Proof.
  intros Hg Hs. induction Hs as [s | s1 s2 s3 H12 _ IH]; [done|].
  apply IH. by apply (step_gone s1 s2 x).
Qed.

Lemma reachable_foreign : reachable (init_state w_foreign).
Proof.
  apply reach_init. intros a Ha. simpl in Ha. apply elem_of_singleton in Ha. subst.
  split; [simpl; lia | eexists; reflexivity].
Qed.

(** ** What [Deinitialize] leaves *)

(** The actors valid after [Deinitialize] are exactly those valid before
    that are in no pool and are not [MainPoolRoot]; the three maps are
    empty. *)
Lemma deinit_state_spec s :
  ObjectPools (deinit_state s) = ∅ /\ ActorToClassMap (deinit_state s) = ∅ /\
  PoolRoots (deinit_state s) = ∅ /\
  forall a, a ∈ w_alive (world (deinit_state s)) <->
            a ∈ w_alive (world s) /\ (forall c, a ∉ pool_of s c) /\ MainPoolRoot s <> Some a.
Proof.
  set (w := destroy_pools (world s) (map_to_list (ObjectPools s))).
  assert (forall a, a ∈ w_alive w <-> a ∈ w_alive (world s) /\ forall c, a ∉ pool_of s c) as Hw.
  { intros a. unfold w. rewrite destroy_pools_alive. split; intros [Ha Hp]; split; auto.
    - intros c Hin. unfold pool_of in Hin.
      destruct (ObjectPools s !! c) as [l|] eqn:E; [|by apply elem_of_nil in Hin].
      apply (Hp c l); [by apply elem_of_map_to_list | done].
    - intros c l Hl Hin. apply elem_of_map_to_list in Hl. apply (Hp c).
      by rewrite (pool_of_Some _ _ _ Hl). }
  unfold deinit_state. fold w.
  destruct (MainPoolRoot s) as [m|]; [destruct (IsValid w m) eqn:Hv|];
    split_and!; try done; intros a; simpl.
  - rewrite elem_of_difference, elem_of_singleton, Hw. split.
    + intros [[Ha Hp] Hne]. split_and!; [done | done | congruence].
    + intros (Ha & Hp & Hne). split_and!; [done | done | congruence].
  - rewrite Hw. split.
    + intros [Ha Hp]. split_and!; [done | done |]. intros Heq. injection Heq as ->.
      apply IsValid_false in Hv. apply Hv, Hw. done.
    + intros (Ha & Hp & _). done.
  - rewrite Hw. split; [intros [Ha Hp]; done | intros (Ha & Hp & _); done].
Qed.

(** ** The claims *)

(** C1 (code defect): [InitializePool] is documented as "creating a
    specified number of actors", but each [SpawnObject] of the loop pops the
    actor the previous [ReturnObjectToPool] pushed.  Pre-warming class
    [BP_Node] five times in a fresh subsystem leaves one actor (handle 1) in
    its pool, not five. *)
Theorem C1_prewarm_five_leaves_one :
  option_map (fun p => pool_of (snd p) BP_Node)
             (InitializePool (Some BP_Node) 5 GameObjects (init_state w_demo)) = Some [1].
Proof. vm_compute. reflexivity. Qed.

(** C2 (counterexample): a refused spawn of a class never seen before leaves
    an empty pool entry for it in [ObjectPools] ([FindOrAdd]). *)
Lemma C2_refused_spawn_adds_pool_entry :
  ObjectPools (init_state w_refusing) !! BP_Node = None /\
  option_map (fun p => (fst p, ObjectPools (snd p) !! BP_Node))
    (SpawnObject (Some BP_Node) ZeroVector ZeroRotator GameObjects (init_state w_refusing))
  = Some (None, Some []).
Proof. split; vm_compute; reflexivity. Qed.

(** C2 (as amended): when the host refuses to spawn class [c] and no actor
    of [c]'s pool is valid, [SpawnObject] returns null; the host world, the
    ownership map [ActorToClassMap], the roots and every other pool are
    untouched, and [c]'s entry in [ObjectPools] becomes the empty pool
    (added if absent, the invalid entries dropped). *)
Theorem C2_refused_spawn c loc rot pt s :
  w_exists (world s) = true ->
  w_can_spawn (world s) c = false ->
  Forall (fun y => y ∉ w_alive (world s)) (pool_of s c) ->
  SpawnObject (Some c) loc rot pt s = Some (None, set_pools (<[c := []]> (ObjectPools s)) s).
Proof.
  intros Hw Hc Hf. apply SpawnObject_refused; [done | done |].
  eapply Forall_impl; [exact Hf|]. intros y Hy. by apply IsValid_false.
Qed.

Lemma C2_refused_spawn_witness :
  Forall (fun y => y ∉ w_alive (world (init_state w_refusing))) (pool_of (init_state w_refusing) BP_Node) /\
  SpawnObject (Some BP_Node) ZeroVector ZeroRotator GameObjects (init_state w_refusing) =
  Some (None, set_pools (<[BP_Node := []]> (ObjectPools (init_state w_refusing))) (init_state w_refusing)).
Proof.
  split; [constructor|].
  apply (C2_refused_spawn BP_Node ZeroVector ZeroRotator GameObjects (init_state w_refusing));
    [reflexivity | reflexivity | constructor].
Defined.




(** C4: [SpawnObject] never hands out an invalid actor.  Either it pops the
    last valid actor [x] of the pool, the invalid actors above it being
    dropped and the ones below it kept, or, no actor of the pool being
    valid, the whole pool is dropped and [x] is a freshly spawned actor. *)
Theorem C4_acquire_skips_stale c loc rot pt s x s' :
  SpawnObject (Some c) loc rot pt s = Some (Some x, s') ->
  x ∈ w_alive (world s') /\
  ((exists kept skipped,
      pool_of s c = kept ++ x :: skipped /\ x ∈ w_alive (world s) /\
      Forall (fun y => y ∉ w_alive (world s)) skipped /\ pool_of s' c = kept) \/
   (Forall (fun y => y ∉ w_alive (world s)) (pool_of s c) /\ pool_of s' c = [] /\
    x = w_next (world s))).
Proof.
  intros H. apply SpawnObject_source in H as (_ & _ & Hx & _ & Hsrc). split; [done|].
  destruct Hsrc as [(kept & sk & ? & ? & ? & ? & _) | (? & ? & ? & _)].
  - left. by exists kept, sk.
  - right. done.
Qed.

Lemma C4_acquire_skips_stale_witness :
  SpawnObject (Some BP_Node) ZeroVector ZeroRotator Nodes s_stale =
    Some (Some 1, set_world (place_and_activate ZeroVector ZeroRotator (world s_stale) 1)
                            (set_pools (<[BP_Node := []]> (ObjectPools s_stale)) s_stale)) /\
  1 ∈ w_alive (world s_stale).
Proof.
  assert (SpawnObject (Some BP_Node) ZeroVector ZeroRotator Nodes s_stale =
    Some (Some 1, set_world (place_and_activate ZeroVector ZeroRotator (world s_stale) 1)
                            (set_pools (<[BP_Node := []]> (ObjectPools s_stale)) s_stale))) as H
    by (vm_compute; reflexivity).
  split; [exact H|].
  exact (proj1 (C4_acquire_skips_stale _ _ _ _ _ _ _ H)).
Defined.

(** C5: returning the same valid, owned actor twice in a row is the same as
    returning it once, and leaves exactly one entry for it in its pool. *)
Theorem C5_double_return x c s s1 s2 :
  reachable s -> x ∈ w_alive (world s) -> ActorToClassMap s !! x = Some c ->
  ReturnObjectToPool x s = Some (tt, s1) ->
  ReturnObjectToPool x s1 = Some (tt, s2) ->
  s2 = s1 /\ count_occ Nat.eq_dec (pool_of s2 c) x = 1.
Proof.
  intros Hr Ha Hc H1 H2. pose proof (reachable_Inv s Hr) as HI.
  pose proof (Inv_Return x s HI) as HI1.
  rewrite ReturnObjectToPool_eq in H1, H2. simplify_eq.
  rewrite (returned_owned x c s) in * by done.
  set (s1 := set_pools _ _) in *.
  assert (x ∈ pool_of s1 c) as Hin.
  { unfold s1, pool_of at 1. simpl. rewrite lookup_insert_eq. simpl.
    apply elem_of_AddUnique. by right. }
  assert (returned_state x s1 = s1) as Hfix.
  { rewrite (returned_owned x c s1); [| exact Ha | exact Hc].
    unfold AddUnique. rewrite bool_decide_eq_true_2 by done.
    unfold s1, pool_of. destruct s as [w P C R m W]. simpl. rewrite lookup_insert_eq. simpl.
    unfold set_pools, set_world, modify_actor. simpl. rewrite insert_insert_eq. do 2 f_equal.
    rewrite alter_alter_eq. apply alter_ext. intros r _. apply set_active_rec_idem. }
  rewrite Hfix. split; [done|].
  apply NoDup_count_occ'; [apply NoDup_ListNoDup; by apply Inv_pool_nodup | by apply list_elem_of_In].
Qed.

Lemma C5_double_return_witness :
  match demo_acquire with
  | Some (Some x, s) =>
      returned_state x (returned_state x s) = returned_state x s /\
      count_occ Nat.eq_dec (pool_of (returned_state x (returned_state x s)) BP_Node) x = 1
  | _ => False
  end.
Proof.
  destruct demo_acquire as [[[x|] s]|] eqn:E; [| vm_compute in E; discriminate ..].
  assert (reachable s) as Hr
    by (eapply reach_step; [exact reachable_demo | eapply step_spawn; exact E]).
  vm_compute in E. injection E as <- <-.
  eapply (C5_double_return 1 BP_Node); [exact Hr | | reflexivity | apply ReturnObjectToPool_eq ..].
  apply IsValid_true. vm_compute. reflexivity.
Defined.

(** C6: after [x] is handed out for class [c], and whatever calls and host
    actions other than [Deinitialize] follow, [x] is still recorded for [c];
    returning it then puts it in [c]'s pool, in no other pool, and leaves the
    other pools as they were.  Over the same run every entry of
    [ActorToClassMap] is kept, entries are only added for actors created
    during the run, and [Deinitialize] clears them all. *)
Theorem C6_type_fidelity c loc rot pt s x s1 s2 :
  reachable s ->
  SpawnObject (Some c) loc rot pt s = Some (Some x, s1) ->
  steps_nd s1 s2 ->
  ActorToClassMap s2 !! x = Some c /\
  (x ∈ w_alive (world s2) ->
     x ∈ pool_of (returned_state x s2) c /\
     (forall c', c' <> c -> x ∉ pool_of (returned_state x s2) c') /\
     (forall c', c' <> c -> ObjectPools (returned_state x s2) !! c' = ObjectPools s2 !! c')) /\
  (forall y c', ActorToClassMap s !! y = Some c' -> ActorToClassMap s2 !! y = Some c') /\
  (forall y c', ActorToClassMap s !! y = None -> ActorToClassMap s2 !! y = Some c' ->
     w_next (world s) <= y) /\
  ActorToClassMap (deinit_state s2) = ∅.
Proof.
  intros Hr H1 Hs. pose proof (reachable_Inv s Hr) as HI.
  assert (reachable s1) as Hr1 by (eapply reach_step; [exact Hr | eapply step_spawn; exact H1]).
  pose proof (steps_nd_reachable s1 s2 Hr1 Hs) as Hr2.
  pose proof (reachable_Inv s2 Hr2) as HI2.
  pose proof (steps_nd_owners s1 s2 Hr1 Hs) as [_ O12].
  pose proof (owners_extend_trans _ _ _ (SpawnObject_owners _ _ _ _ _ _ _ HI H1)
                (steps_nd_owners s1 s2 Hr1 Hs)) as [_ O].
  destruct (acquire_facts _ _ _ _ _ _ _ HI H1) as (_ & _ & Hc1 & _).
  assert (ActorToClassMap s2 !! x = Some c) as Hc2.
  { destruct (O12 x) as [E|(N & _)]; congruence. }
  split_and!.
  - done.
  - intros Ha. split_and!.
    + rewrite (returned_owned x c s2) by done. rewrite pool_of_set_pools_insert.
      apply elem_of_AddUnique. by right.
    + intros c' Hne Hin.
      apply (Inv_pool_owner _ c' x (Inv_Return x s2 HI2)) in Hin.
      rewrite (returned_owned x c s2) in Hin by done. simpl in Hin. congruence.
    + intros c' Hne. rewrite (returned_owned x c s2) by done. simpl. by rewrite lookup_insert_ne.
  - intros y c' Hy. destruct (O y) as [E|(N & _)]; congruence.
  - intros y c' Hy Hy'. destruct (O y) as [E|(N & B)]; [congruence | lia].
  - unfold deinit_state. destruct (MainPoolRoot s2); [destruct (IsValid _ _)|]; done.
Qed.

Lemma C6_type_fidelity_witness :
  match demo_acquire with
  | Some (Some x, s1) =>
      match SpawnObject (Some 7) ZeroVector ZeroRotator Nodes s1 with
      | Some (_, s2) =>
          ActorToClassMap s2 !! x = Some BP_Node /\ x ∈ pool_of (returned_state x s2) BP_Node
      | None => False
      end
  | _ => False
  end.
Proof.
  destruct demo_acquire as [[[x|] s1]|] eqn:E; [| vm_compute in E; discriminate ..].
  destruct (SpawnObject (Some 7) ZeroVector ZeroRotator Nodes s1) as [[r2 s2]|] eqn:E2.
  2:{ vm_compute in E. injection E as <- <-. vm_compute in E2. discriminate. }
  destruct (C6_type_fidelity BP_Node _ _ _ _ x s1 s2 reachable_demo E
              (steps_cons _ _ _ (nd_spawn _ _ _ _ _ _ _ E2) (steps_refl _))) as (Hc & Hroute & _).
  split; [exact Hc | apply Hroute].
  vm_compute in E. injection E as <- <-. vm_compute in E2. injection E2 as <- <-.
  apply IsValid_true. vm_compute. reflexivity.
Defined.

(** C7: returning a valid actor that [ActorToClassMap] does not record logs
    a warning for it, destroys it and touches no pool; from then on, whatever
    happens, it stays invalid and in no pool.  Returning an invalid actor
    changes nothing. *)
Theorem C7_foreign_release x s s' :
  reachable s -> ReturnObjectToPool x s = Some (tt, s') ->
  (x ∈ w_alive (world s) -> ActorToClassMap s !! x = None ->
     warnings s' = warnings s ++ [x] /\ ObjectPools s' = ObjectPools s /\
     forall s'', steps s' s'' -> (x ∉ w_alive (world s'')) /\ forall c, (x ∉ pool_of s'' c)) /\
  (x ∉ w_alive (world s) -> s' = s).
Proof.
  intros Hr H. rewrite ReturnObjectToPool_eq in H. simplify_eq.
  pose proof (reachable_Inv s Hr) as HI. split.
  - intros Ha Hc. rewrite returned_foreign by done. split_and!; [done | done |].
    intros s'' Hs.
    assert (gone x (set_world (DestroyActor (world s) x) (add_warning x s))) as Hg.
    { split_and!.
      - simpl. set_solver.
      - simpl. by apply (inv_alive s HI).
      - intros c Hin. apply (Inv_pool_owner s c x HI) in Hin. congruence. }
    destruct (steps_gone _ _ _ Hg Hs) as (Hd & _ & Hp). auto.
  - apply returned_invalid.
Qed.

Lemma C7_foreign_release_witness :
  warnings (returned_state 1 (init_state w_foreign)) = [1] /\
  (1 ∉ w_alive (world (returned_state 1 (init_state w_foreign)))) /\
  1 ∉ pool_of (returned_state 1 (init_state w_foreign)) 9.
Proof.
  destruct (proj1 (C7_foreign_release 1 (init_state w_foreign) _ reachable_foreign
                     (ReturnObjectToPool_eq _ _)))
    as (Hw & _ & Hg); [simpl; set_solver | reflexivity |].
  split; [exact Hw|]. destruct (Hg _ (run_refl _)) as [Hd Hp]. split; [exact Hd | apply Hp].
Defined.

(** C8: [Deinitialize] destroys the pooled actors and [MainPoolRoot] and
    empties the three maps, but never destroys the category roots of
    [PoolRoots]: it only forgets them.  In a fresh world that spawns every
    class, acquire and return one [BP_Node] under [GameObjects] (actor [1];
    the run spawns [MainPoolRoot] [2] and the category root [3]), then call
    [Deinitialize]: [1] and [2] are destroyed, [PoolRoots] is empty, and the
    category root [3] is still valid. *)
Theorem C8_category_root_survives_teardown :
  match demo_acquire with
  | Some (Some x, s1) =>
      x = 1 /\
      PoolRoots (returned_state x s1) !! GameObjects = Some 3 /\
      MainPoolRoot (returned_state x s1) = Some 2 /\
      IsValid (world (deinit_state (returned_state x s1))) x = false /\
      IsValid (world (deinit_state (returned_state x s1))) 2 = false /\
      PoolRoots (deinit_state (returned_state x s1)) = ∅ /\
      IsValid (world (deinit_state (returned_state x s1))) 3 = true
  | _ => False
  end.
Proof. vm_compute. split_and!; reflexivity. Qed.

(** C9: right after a [SpawnObject] that returns [x], [x] is shown, collides,
    ticks and has every component active; right after [ReturnObjectToPool]
    of a valid actor the pooler owns, all four are off.  Nothing depends on
    the class. *)
Theorem C9_activation_flags :
  (forall c loc rot pt s x s',
     reachable s -> SpawnObject (Some c) loc rot pt s = Some (Some x, s') ->
     exists r, w_actors (world s') !! x = Some r /\ active_flags true r) /\
  (forall x c s s',
     reachable s -> x ∈ w_alive (world s) -> ActorToClassMap s !! x = Some c ->
     ReturnObjectToPool x s = Some (tt, s') ->
     exists r, w_actors (world s') !! x = Some r /\ active_flags false r).
Proof.
  split.
  - intros c loc rot pt s x s' Hr H. pose proof (reachable_Inv s Hr) as HI.
    pose proof H as H'.
    apply SpawnObject_cases in H as [(_ & Hx & _) | (Hw & Hc)]; [done|].
    destruct Hc as [(a & Ht & Hx & ->) | [(_ & _ & Hx & _) | (a & w' & rt & s1 & Ht & Hsp & Hg & Hx & ->)]];
      simplify_eq.
    + destruct (take_from_pool (IsValid (world s)) (pool_of s c)) as [r rest] eqn:Ht'. simpl in Ht. subst r.
      destruct (take_from_pool_Some _ _ _ _ Ht') as (_ & _ & Hva & _).
      apply IsValid_true in Hva. destruct (inv_alive s HI a Hva) as [_ [r Hrec]].
      exists (set_active_rec true (set_loc_rot loc rot r)). split; [|apply set_active_rec_flags].
      simpl. by apply place_and_activate_lookup.
    + destruct (acquire_facts _ _ _ _ _ _ _ HI H') as (_ & _ & _ & _ & [r Hrec]).
      set (w2 := match rt with Some y => modify_actor (set_parent y) (world s1) a | None => world s1 end) in *.
      assert (is_Some (w_actors w2 !! a)) as [r2 Hr2].
      { subst w2. destruct rt; [apply modify_actor_is_Some|];
        apply GetOrCreatePoolRoot_frame in Hg as (_ & _ & _ & (_ & _ & _ & _ & _ & Ho & _) & _);
        apply SpawnActor_Some in Hsp as (_ & -> & Hn & _ & Hrr & _);
        rewrite Ho; simpl; rewrite ?Hn; eauto. }
      exists (set_active_rec true (set_loc_rot loc rot r2)). split; [|apply set_active_rec_flags].
      simpl. by apply place_and_activate_lookup.
  - intros x c s s' Hr Ha Hc H. pose proof (reachable_Inv s Hr) as HI.
    rewrite ReturnObjectToPool_eq in H. simplify_eq.
    rewrite (returned_owned x c s) by done. simpl.
    destruct (inv_alive s HI x Ha) as [_ [r Hrec]].
    exists (set_active_rec false r). split; [|apply set_active_rec_flags].
    by rewrite lookup_alter_eq, Hrec.
Qed.

Lemma C9_activation_flags_witness :
  match demo_acquire with
  | Some (Some x, s') =>
      (exists r, w_actors (world s') !! x = Some r /\ active_flags true r) /\
      (exists r, w_actors (world (returned_state x s')) !! x = Some r /\ active_flags false r)
  | _ => False
  end.
Proof.
  destruct demo_acquire as [[[x|] s']|] eqn:E; [| vm_compute in E; discriminate ..].
  pose proof reachable_demo as Hr.
  assert (reachable s') as Hr' by (eapply reach_step; [exact Hr | eapply step_spawn; exact E]).
  vm_compute in E. injection E as <- <-.
  split.
  - exact (proj1 C9_activation_flags BP_Node ZeroVector ZeroRotator GameObjects
             (init_state w_demo) _ _ Hr eq_refl).
  - eapply (proj2 C9_activation_flags _ BP_Node); [exact Hr' | | reflexivity | apply ReturnObjectToPool_eq].
    apply IsValid_true. vm_compute. reflexivity.
Defined.



(** ** Further properties of the code *)

Lemma set_active_rec_last b b' r : set_active_rec b (set_active_rec b' r) = set_active_rec b r.
Proof. unfold set_active_rec. simpl. by rewrite map_map. Qed.

(** [SetActorActive]: of two calls on the same actor the last one wins. *)
Theorem SetActorActive_last_wins a b b' s :
  (SetActorActive a b' ;;; SetActorActive a b) s = SetActorActive a b s.
Proof.
  unfold bind. rewrite !SetActorActive_eq.
  destruct (IsValid (world s) a) eqn:Hv.
  - cbn [world set_world]. rewrite IsValid_modify_actor, Hv, set_world_set_world.
    do 2 f_equal. unfold modify_actor. simpl. f_equal.
    rewrite alter_alter_eq. f_equal. apply alter_ext. intros r _. apply set_active_rec_last.
  - rewrite Hv. done.
Qed.

Lemma deinit_state_idem s : deinit_state (deinit_state s) = deinit_state s.
Proof.
  destruct s as [w P C R m W]. unfold deinit_state. simpl.
  set (w1 := destroy_pools w (map_to_list P)).
  destruct m as [m|]; [destruct (IsValid w1 m) eqn:Hv|]; simpl;
    rewrite ?map_to_list_empty; simpl; rewrite ?Hv; done.
Qed.

(** [Deinitialize] twice in a row does what one call does. *)
Theorem Deinitialize_idempotent s :
  (Deinitialize ;;; Deinitialize) s = Deinitialize s.
Proof.
  unfold bind. rewrite !Deinitialize_eq. f_equal. f_equal. apply deinit_state_idem.
Qed.

Lemma deinit_world_alive s a :
  a ∈ w_alive (destroy_pools (world s) (map_to_list (ObjectPools s))) <->
  a ∈ w_alive (world s) /\ forall c, a ∉ pool_of s c.
Proof.
  rewrite destroy_pools_alive. split; intros [Ha Hp]; split; auto.
  - intros c Hin. unfold pool_of in Hin.
    destruct (ObjectPools s !! c) as [l|] eqn:E; [|by apply elem_of_nil in Hin].
    apply (Hp c l); [by apply elem_of_map_to_list | done].
  - intros c l Hl Hin. apply elem_of_map_to_list in Hl. apply (Hp c).
    by rewrite (pool_of_Some _ _ _ Hl).
Qed.

(** [Deinitialize] leaves the three maps empty; the actors still valid are
    exactly those valid before that were in no pool and were not
    [MainPoolRoot]; [MainPoolRoot] keeps its value exactly when it held an
    actor that was not valid or sat in a pool (the pool loop has then
    destroyed it), and becomes null otherwise; no handle is allocated and no
    warning logged. *)
Theorem Deinitialize_result s s' :
  Deinitialize s = Some (tt, s') ->
  ObjectPools s' = ∅ /\ ActorToClassMap s' = ∅ /\ PoolRoots s' = ∅ /\
  (forall a, a ∈ w_alive (world s') <->
             a ∈ w_alive (world s) /\ (forall c, a ∉ pool_of s c) /\ MainPoolRoot s <> Some a) /\
  (forall m, MainPoolRoot s' = Some m <->
             MainPoolRoot s = Some m /\ ~ (m ∈ w_alive (world s) /\ forall c, m ∉ pool_of s c)) /\
  warnings s' = warnings s /\ w_next (world s') = w_next (world s).
Proof.
  intros H. rewrite Deinitialize_eq in H. simplify_eq.
  destruct (deinit_state_spec s) as (HP & HC & HR & Hal).
  destruct (destroy_pools_fields (world s) (map_to_list (ObjectPools s))) as (_ & _ & En & _ & _).
  split_and!; try done.
  - intros m. unfold deinit_state. cbn zeta.
    destruct (MainPoolRoot s) as [m'|] eqn:E.
    + destruct (IsValid _ m') eqn:Hv; simpl; rewrite ?E.
      * split; [discriminate|]. intros [Heq Hn]. injection Heq as <-.
        apply IsValid_true, deinit_world_alive in Hv. contradiction.
      * split; [|intros [? _]; done]. intros Heq. injection Heq as <-. split; [done|].
        intros Hc. apply IsValid_false in Hv. apply Hv, deinit_world_alive, Hc.
    + simpl. rewrite E. split; [discriminate | intros [? _]; discriminate].
  - unfold deinit_state. destruct (MainPoolRoot s); [destruct (IsValid _ _)|]; done.
  - unfold deinit_state. destruct (MainPoolRoot s); [destruct (IsValid _ _)|]; simpl; done.
Qed.

Lemma Deinitialize_result_witness :
  (match demo_prewarm with
   | Some (_, s) =>
       ObjectPools (deinit_state s) = ∅ /\ (1 ∉ w_alive (world (deinit_state s)))
   | None => False
   end) /\
  MainPoolRoot (deinit_state (mkState (mkWorld true ∅ {[2]} 3 (fun _ => true) (fun _ => 0))
                                      {[BP_Node := [2]]} ∅ ∅ (Some 2) [])) = Some 2.
Proof.
  split.
  - destruct demo_prewarm as [[[] s]|] eqn:E; [| vm_compute in E; discriminate].
    destruct (Deinitialize_result s _ (Deinitialize_eq s)) as (HP & _ & _ & Hal & _).
    split; [exact HP|].
    rewrite Hal. intros (_ & Hp & _). apply (Hp BP_Node).
    vm_compute in E. injection E as <-. apply list_elem_of_In. vm_compute. left. reflexivity.
  - match goal with
    | |- MainPoolRoot (deinit_state ?S) = _ =>
        destruct (Deinitialize_result S _ (Deinitialize_eq S)) as (_ & _ & _ & _ & Hm & _)
    end.
    apply (proj2 (Hm 2)). split; [reflexivity|]. intros [_ Hp]. apply (Hp BP_Node).
    apply list_elem_of_In. vm_compute. left. reflexivity.
Defined.

(** [InitializePool] with a null class or a [Count] of zero or less does
    nothing. *)
Theorem InitializePool_noop cls Count pt s :
  cls = None \/ (Count <= 0)%Z -> InitializePool cls Count pt s = Some (tt, s).
Proof.
  intros [->|H]; [done|]. destruct cls as [c|]; [|done]. simpl.
  destruct Count; [done | lia | done].
Qed.

Lemma InitializePool_noop_witness :
  InitializePool (Some BP_Node) (-3) GameObjects (init_state w_demo) = Some (tt, init_state w_demo).
Proof. apply InitializePool_noop. right. lia. Defined.

(** In every reachable state each pool is duplicate-free, every actor of
    class [c]'s pool is recorded for [c] in [ActorToClassMap] (so no actor
    sits in two pools), and [MainPoolRoot] is not recorded. *)
Theorem reachable_pools_wellformed s :
  reachable s ->
  (forall c, NoDup (pool_of s c)) /\
  (forall c a, a ∈ pool_of s c -> ActorToClassMap s !! a = Some c) /\
  (forall c c' a, a ∈ pool_of s c -> a ∈ pool_of s c' -> c = c') /\
  (forall m, MainPoolRoot s = Some m -> ActorToClassMap s !! m = None).
Proof.
  intros Hr. pose proof (reachable_Inv s Hr) as HI. split_and!.
  - intros c. by apply Inv_pool_nodup.
  - intros c a. by apply Inv_pool_owner.
  - intros c c' a H1 H2. apply (Inv_pool_owner s) in H1, H2; [|done..]. congruence.
  - intros m Hm. by apply (inv_main s HI).
Qed.

Lemma reachable_pools_wellformed_witness :
  match demo_prewarm with
  | Some (_, s) => NoDup (pool_of s BP_Node) /\ ActorToClassMap s !! 1 = Some BP_Node
  | None => False
  end.
Proof.
  destruct demo_prewarm as [[[] s]|] eqn:E; [| vm_compute in E; discriminate].
  assert (reachable s) as Hr
    by (eapply reach_step; [exact reachable_demo | eapply step_init; exact E]).
  destruct (reachable_pools_wellformed s Hr) as (Hnd & Ho & _).
  split; [apply Hnd|]. apply (Ho BP_Node).
  vm_compute in E. injection E as <-. apply list_elem_of_In. vm_compute. left. reflexivity.
Defined.

Lemma SpawnObject_alive cls loc rot pt s r s' a :
  SpawnObject cls loc rot pt s = Some (r, s') -> a ∈ w_alive (world s) -> a ∈ w_alive (world s').
Proof.
  intros H Ha. destruct cls as [c|].
  2:{ unfold SpawnObject, ret in H. simplify_eq. done. }
  apply SpawnObject_cases in H as [(_ & _ & ->) | (_ & Hc)]; [done|].
  destruct Hc as [(b & _ & _ & ->) | [(_ & _ & _ & ->) | (b & w' & rt & s1 & _ & Hsp & Hg & _ & ->)]];
    [done | done |].
  apply GetOrCreatePoolRoot_frame in Hg as (_ & _ & _ & Hg2 & _).
  apply SpawnActor_Some in Hsp as (_ & _ & _ & Hg1 & _).
  pose proof (world_grows_trans _ _ _ Hg1 Hg2) as (_ & _ & _ & _ & A & _ & _).
  assert (w_alive (world (set_world (place_and_activate loc rot
            match rt with Some y => modify_actor (set_parent y) (world s1) b
                        | None => world s1 end b) s1)) = w_alive (world s1)) as ->
    by (destruct rt; done).
  apply A. by left.
Qed.

Lemma returned_alive x s a :
  a ∈ w_alive (world (returned_state x s)) <->
  a ∈ w_alive (world s) /\ ~ (a = x /\ ActorToClassMap s !! x = None).
Proof.
  unfold returned_state. destruct (IsValid (world s) x) eqn:Hv.
  - destruct (ActorToClassMap s !! x) eqn:Hc; simpl.
    + split; [intros H; split; [done | intros [_ ?]; done] | tauto].
    + rewrite elem_of_difference, elem_of_singleton. split.
      * intros [H Hne]. split; [done | tauto].
      * intros [H Hn]. split; [done | tauto].
  - apply IsValid_false in Hv. split; [intros H; split; [done|] | tauto].
    intros [-> _]. done.
Qed.

Lemma InitializePool_loop_alive c pt n s s' a :
  Inv s -> InitializePool_loop c pt n s = Some (tt, s') ->
  a ∈ w_alive (world s) -> a ∈ w_alive (world s').
Proof.
  revert s. induction n as [|n IH]; intros s HI H Ha; cbn [InitializePool_loop] in H.
  - unfold ret in H. by simplify_eq.
  - unfold bind in H at 1.
    destruct (SpawnObject (Some c) ZeroVector ZeroRotator pt s) as [[r s1]|] eqn:Hs; [|done].
    pose proof (SpawnObject_alive _ _ _ _ _ _ _ a Hs Ha) as Ha1.
    pose proof (Inv_SpawnObject _ _ _ _ _ _ _ HI Hs) as HI1.
    unfold bind in H. destruct r as [x|].
    + rewrite ReturnObjectToPool_eq in H.
      destruct (acquire_facts _ _ _ _ _ _ _ HI Hs) as (_ & _ & Hc & _).
      apply (IH _ (Inv_Return x s1 HI1) H). apply returned_alive. split; [done|].
      intros [_ Hn]. congruence.
    + unfold ret in H. exact (IH _ HI1 H Ha1).
Qed.

(** [SpawnObject] never makes an actor invalid, and neither does
    [InitializePool] from a reachable state (every actor it returns is one
    the pooler records). *)
Theorem SpawnObject_InitializePool_keep_alive :
  (forall cls loc rot pt s r s' a,
     SpawnObject cls loc rot pt s = Some (r, s') ->
     a ∈ w_alive (world s) -> a ∈ w_alive (world s')) /\
  (forall cls n pt s s' a,
     reachable s -> InitializePool cls n pt s = Some (tt, s') ->
     a ∈ w_alive (world s) -> a ∈ w_alive (world s')).
Proof.
  split.
  - intros. eapply SpawnObject_alive; eauto.
  - intros cls n pt s s' a Hr H Ha. destruct cls as [c|].
    + eapply InitializePool_loop_alive; [by apply reachable_Inv | exact H | exact Ha].
    + simpl in H. unfold ret in H. by simplify_eq.
Qed.

Lemma SpawnObject_InitializePool_keep_alive_witness :
  match demo_acquire with
  | Some (Some x, s1) =>
      match InitializePool (Some 7) 3 Nodes s1 with
      | Some (_, s2) => x ∈ w_alive (world s2)
      | None => False
      end
  | _ => False
  end.
Proof.
  destruct demo_acquire as [[[x|] s1]|] eqn:E; [| vm_compute in E; discriminate ..].
  destruct (InitializePool (Some 7) 3 Nodes s1) as [[[] s2]|] eqn:E2.
  2:{ vm_compute in E. injection E as <- <-. vm_compute in E2. discriminate. }
  assert (reachable s1) as Hr
    by (eapply reach_step; [exact reachable_demo | eapply step_spawn; exact E]).
  apply (proj2 SpawnObject_InitializePool_keep_alive _ _ _ s1 s2 x Hr E2).
  vm_compute in E. injection E as <- <-. apply IsValid_true. vm_compute. reflexivity.
Defined.

(** [ReturnObjectToPool x] allocates no handle, leaves [ActorToClassMap]
    and both roots as they are, changes no pool but the one of [x]'s
    recorded class, makes no actor invalid except [x] itself when [x] is
    not recorded, and, when [x] is recorded, changes no actor's record but
    [x]'s. *)
Theorem ReturnObjectToPool_frame x s s' :
  ReturnObjectToPool x s = Some (tt, s') ->
  ActorToClassMap s' = ActorToClassMap s /\ PoolRoots s' = PoolRoots s /\
  MainPoolRoot s' = MainPoolRoot s /\ w_next (world s') = w_next (world s) /\
  (forall a, a ∈ w_alive (world s') <->
             a ∈ w_alive (world s) /\ ~ (a = x /\ ActorToClassMap s !! x = None)) /\
  (forall c, ActorToClassMap s !! x <> Some c -> ObjectPools s' !! c = ObjectPools s !! c) /\
  (ActorToClassMap s !! x <> None ->
   forall a, a <> x -> w_actors (world s') !! a = w_actors (world s) !! a).
Proof.
  intros H. rewrite ReturnObjectToPool_eq in H. simplify_eq.
  split_and!; [| | | | apply returned_alive | |];
    unfold returned_state; destruct (IsValid (world s) x); try done;
    destruct (ActorToClassMap s !! x) eqn:Hc; try done.
  - intros c' Hne. simpl. rewrite lookup_insert_ne; [done|]. congruence.
  - intros _ a Hne. simpl. by rewrite lookup_alter_ne.
Qed.

Lemma ReturnObjectToPool_frame_witness :
  match demo_acquire with
  | Some (Some x, s1) =>
      ActorToClassMap (returned_state x s1) = ActorToClassMap s1 /\
      x ∈ w_alive (world (returned_state x s1))
  | _ => False
  end.
Proof.
  destruct demo_acquire as [[[x|] s1]|] eqn:E; [| vm_compute in E; discriminate ..].
  destruct (ReturnObjectToPool_frame x s1 _ (ReturnObjectToPool_eq x s1)) as (Hc & _ & _ & _ & Ha & _).
  split; [exact Hc|]. apply Ha.
  vm_compute in E. injection E as <- <-. split.
  - apply IsValid_true. vm_compute. reflexivity.
  - intros [_ Hn]. vm_compute in Hn. discriminate.
Defined.

(** [GetOrCreatePoolRoot] when [MainPoolRoot] and the category root of
    [pt] are both valid: it returns that root and changes nothing. *)
Theorem GetOrCreatePoolRoot_reuse pt s m r :
  w_exists (world s) = true -> MainPoolRoot s = Some m -> m ∈ w_alive (world s) ->
  PoolRoots s !! pt = Some r -> r ∈ w_alive (world s) ->
  GetOrCreatePoolRoot pt s = Some (Some r, s).
Proof.
  intros Hw Hm Hma Hr Hra. apply IsValid_true in Hma, Hra.
  unfold GetOrCreatePoolRoot, bind, get, ret. rewrite Hw. simpl.
  rewrite Hm. simpl. rewrite Hma, Hr, Hra. done.
Qed.

Lemma GetOrCreatePoolRoot_reuse_witness :
  GetOrCreatePoolRoot GameObjects
    (mkState (mkWorld true ∅ {[2; 3]} 4 (fun _ => true) (fun _ => 0)) ∅ ∅
             {[GameObjects := 3]} (Some 2) [])
  = Some (Some 3, mkState (mkWorld true ∅ {[2; 3]} 4 (fun _ => true) (fun _ => 0)) ∅ ∅
                          {[GameObjects := 3]} (Some 2) []).
Proof.
  apply (GetOrCreatePoolRoot_reuse _ _ 2); [reflexivity | reflexivity | | reflexivity |];
    simpl; set_solver.
Defined.

(** [GetOrCreatePoolRoot] when [MainPoolRoot] is valid but [pt] has no
    valid category root: it spawns a new [AActor] (the next handle), attaches
    it to [MainPoolRoot], records it in [PoolRoots] for [pt] and returns it;
    the pools and [ActorToClassMap] are untouched. *)
Theorem GetOrCreatePoolRoot_create pt s m :
  w_exists (world s) = true -> MainPoolRoot s = Some m -> m ∈ w_alive (world s) ->
  (forall r, PoolRoots s !! pt = Some r -> r ∉ w_alive (world s)) ->
  w_can_spawn (world s) AActor_StaticClass = true ->
  exists s',
    GetOrCreatePoolRoot pt s = Some (Some (w_next (world s)), s') /\
    PoolRoots s' = <[pt := w_next (world s)]> (PoolRoots s) /\
    MainPoolRoot s' = Some m /\
    w_alive (world s') = {[w_next (world s)]} ∪ w_alive (world s) /\
    w_actors (world s') !! w_next (world s) =
      Some (mkActor AActor_StaticClass false true true
              (repeat true (w_ncomps (world s) AActor_StaticClass)) ZeroVector ZeroRotator (Some m)) /\
    ObjectPools s' = ObjectPools s /\ ActorToClassMap s' = ActorToClassMap s.
Proof.
  intros Hw Hm Hma Hr Hc. apply IsValid_true in Hma.
  assert (match PoolRoots s !! pt with
          | Some r => if IsValid (world s) r then ret (Some r) else create_pool_root pt
          | None => create_pool_root pt end s = create_pool_root pt s) as Hcase.
  { destruct (PoolRoots s !! pt) as [r|] eqn:E; [|done].
    rewrite (proj2 (IsValid_false _ _) (Hr r eq_refl)). done. }
  unfold GetOrCreatePoolRoot, bind at 1, get at 1. rewrite Hw. simpl.
  rewrite Hm. simpl. rewrite Hma. unfold bind at 1, ret at 1. unfold bind at 1, get at 1.
  rewrite Hcase.
  unfold create_pool_root, spawn_root, bind, get, put, ret, modify.
  unfold SpawnActor. rewrite Hc. simpl. rewrite Hm. simpl.
  eexists. split; [reflexivity|]. simpl. split_and!; try done.
  rewrite lookup_alter_eq, lookup_insert_eq. done.
Qed.

Lemma GetOrCreatePoolRoot_create_witness :
  exists s', GetOrCreatePoolRoot Nodes
    (mkState (mkWorld true ∅ {[2]} 3 (fun _ => true) (fun _ => 0)) ∅ ∅ ∅ (Some 2) [])
    = Some (Some 3, s') /\ PoolRoots s' = {[Nodes := 3]}.
Proof.
  destruct (GetOrCreatePoolRoot_create Nodes
    (mkState (mkWorld true ∅ {[2]} 3 (fun _ => true) (fun _ => 0)) ∅ ∅ ∅ (Some 2) []) 2)
    as (s' & H & Hr & _); [reflexivity | reflexivity | simpl; set_solver | | reflexivity |].
  - intros r Hr. discriminate.
  - exists s'. split; [exact H|]. rewrite Hr. reflexivity.
Defined.

Lemma spawn_root_refused_crash pt s :
  w_exists (world s) = true -> w_can_spawn (world s) AActor_StaticClass = false ->
  IsValidPtr (world s) (MainPoolRoot s) = false \/
    (forall r, PoolRoots s !! pt = Some r -> r ∉ w_alive (world s)) ->
  GetOrCreatePoolRoot pt s = None.
Proof.
  intros Hw Hc Hroot.
  assert (spawn_root s = None) as Hsp.
  { unfold spawn_root, bind, get. unfold SpawnActor. rewrite Hc. done. }
  unfold GetOrCreatePoolRoot, bind at 1, get at 1. rewrite Hw. simpl.
  destruct (IsValidPtr (world s) (MainPoolRoot s)) eqn:Hm.
  - destruct Hroot as [Hroot|Hroot]; [discriminate|].
    unfold bind at 1, ret at 1. unfold bind at 1, get at 1.
    assert (create_pool_root pt s = None) as Hcr.
    { unfold create_pool_root, bind at 1. by rewrite Hsp. }
    destruct (PoolRoots s !! pt) as [r|] eqn:E; [|done].
    rewrite (proj2 (IsValid_false _ _) (Hroot r eq_refl)). done.
  - unfold bind at 1. unfold bind at 1. by rewrite Hsp.
Qed.

(** [GetOrCreatePoolRoot] when a root must be spawned ([MainPoolRoot] is
    null or invalid, or [pt] has no valid category root) and the host
    refuses to spawn an [AActor]: the code dereferences the null result
    ([SetActorLabel]), modelled as [None]. *)
Theorem GetOrCreatePoolRoot_root_refused pt s :
  w_exists (world s) = true -> w_can_spawn (world s) AActor_StaticClass = false ->
  IsValidPtr (world s) (MainPoolRoot s) = false \/
    (forall r, PoolRoots s !! pt = Some r -> r ∉ w_alive (world s)) ->
  GetOrCreatePoolRoot pt s = None.
Proof. exact (spawn_root_refused_crash pt s). Qed.

Lemma GetOrCreatePoolRoot_root_refused_witness :
  GetOrCreatePoolRoot GameObjects (init_state w_noroot) = None.
Proof. apply GetOrCreatePoolRoot_root_refused; [reflexivity | reflexivity | left; reflexivity]. Defined.

Lemma create_pool_root_roots pt s r s' :
  create_pool_root pt s = Some (r, s') ->
  PoolRoots s' = <[pt := w_next (world s)]> (PoolRoots s) /\ r = Some (w_next (world s)) /\
  w_next (world s') = S (w_next (world s)).
Proof.
  unfold create_pool_root, bind at 1.
  destruct (spawn_root s) as [[nr s1]|] eqn:Hs; [|done].
  apply spawn_root_Some in Hs as (w' & Hsp & ->).
  apply SpawnActor_Some in Hsp as (_ & -> & Hn & _).
  unfold bind, get, modify, ret. simpl.
  intros H. destruct (MainPoolRoot s) as [mr|]; simpl in H; simplify_eq; simpl; auto.
Qed.

Lemma GetOrCreatePoolRoot_roots pt s r s' :
  GetOrCreatePoolRoot pt s = Some (r, s') ->
  forall pt' r', PoolRoots s' !! pt' = Some r' ->
  PoolRoots s !! pt' = Some r' \/ w_next (world s) <= r' < w_next (world s').
Proof.
  unfold GetOrCreatePoolRoot, bind at 1, get at 1.
  destruct (negb (w_exists (world s))).
  { unfold ret. intros H. simplify_eq. auto. }
  assert (forall s1, (if IsValidPtr (world s) (MainPoolRoot s) then ret tt
                      else bind spawn_root (fun r => modify (set_main (Some r)))) s = Some (tt, s1) ->
     PoolRoots s1 = PoolRoots s /\ w_next (world s) <= w_next (world s1)) as Hmain.
  { intros s1. destruct (IsValidPtr _ _).
    - unfold ret. intros H. simplify_eq. auto.
    - unfold bind. destruct (spawn_root s) as [[nr s2]|] eqn:Hs; [|done].
      apply spawn_root_Some in Hs as (w' & Hsp & ->).
      apply SpawnActor_Some in Hsp as (_ & -> & Hn & _).
      unfold modify. intros H. simplify_eq. simpl. split; [done | lia]. }
  unfold bind at 1.
  destruct ((if IsValidPtr (world s) (MainPoolRoot s) then ret tt
             else bind spawn_root (fun r => modify (set_main (Some r)))) s) as [[[] s1]|] eqn:E1;
    [|done].
  destruct (Hmain s1 eq_refl) as [R1 N1].
  cbn [bind get].
  assert (forall r s2, create_pool_root pt s1 = Some (r, s2) ->
     forall pt' r', PoolRoots s2 !! pt' = Some r' ->
     PoolRoots s !! pt' = Some r' \/ w_next (world s) <= r' < w_next (world s2)) as Hcr.
  { intros r2 s2 H. apply create_pool_root_roots in H as (R2 & _ & N2).
    intros pt' r' Hr. rewrite R2, lookup_insert in Hr. case_decide; simplify_eq.
    - right. lia.
    - left. by rewrite <- R1. }
  destruct (PoolRoots s1 !! pt) as [rt|].
  - destruct (IsValid (world s1) rt); [|apply Hcr].
    unfold ret. intros H. simplify_eq. intros pt' r' Hr. left. by rewrite <- R1.
  - apply Hcr.
Qed.

Lemma roots_ok_set_world w s :
  w_next (world s) <= w_next w -> roots_ok s -> roots_ok (set_world w s).
Proof. intros Hn Hok pt r Hr. destruct (Hok pt r Hr). simpl. split; [lia | done]. Qed.

Lemma roots_ok_GetOrCreatePoolRoot pt s r s' :
  (forall a c, ActorToClassMap s !! a = Some c -> a < w_next (world s)) ->
  roots_ok s -> GetOrCreatePoolRoot pt s = Some (r, s') -> roots_ok s'.
Proof.
  intros Hc Hok H. pose proof H as H'.
  apply GetOrCreatePoolRoot_frame in H' as (_ & HC & _ & (_ & _ & _ & Hn & _) & _).
  intros pt' r' Hr. rewrite HC.
  destruct (GetOrCreatePoolRoot_roots _ _ _ _ H pt' r' Hr) as [Ho|Hnew].
  - destruct (Hok _ _ Ho). split; [lia | done].
  - split; [lia|]. destruct (ActorToClassMap s !! r') eqn:E; [|done].
    specialize (Hc _ _ E). lia.
Qed.

Lemma roots_ok_popped c s : roots_ok s -> roots_ok (popped_state c s).
Proof. intros Hok pt r Hr. exact (Hok pt r Hr). Qed.

Lemma roots_ok_SpawnObject cls loc rot pt s r s' :
  Inv s -> roots_ok s -> SpawnObject cls loc rot pt s = Some (r, s') -> roots_ok s'.
Proof.
  intros HI Hok H. destruct cls as [c|].
  2:{ unfold SpawnObject, ret in H. by simplify_eq. }
  apply SpawnObject_cases in H as [(_ & _ & ->) | (_ & Hc)]; [done|].
  destruct Hc as [(a & _ & _ & ->) | [(_ & _ & _ & ->) | (a & w' & rt & s1 & _ & Hsp & Hg & _ & ->)]].
  - apply roots_ok_set_world; [done|]. by apply roots_ok_popped.
  - by apply roots_ok_popped.
  - apply roots_ok_set_world; [destruct rt; done|].
    apply SpawnActor_Some in Hsp as (_ & -> & Hn & _).
    eapply roots_ok_GetOrCreatePoolRoot; [| |exact Hg].
    + intros b c' Hb. simpl in *. rewrite Hn. rewrite lookup_insert in Hb. case_decide; [lia|].
      specialize (inv_owned_old s HI _ _ Hb). lia.
    + intros pt' r' Hr. simpl in Hr. destruct (Hok _ _ Hr) as [Hlt Hnone]. simpl.
      rewrite Hn, lookup_insert_ne by lia. split; [lia | done].
Qed.

Lemma roots_ok_Return a s : roots_ok s -> roots_ok (returned_state a s).
Proof.
  intros Hok. unfold returned_state.
  destruct (IsValid (world s) a); [|done].
  destruct (ActorToClassMap s !! a); intros pt r Hr; exact (Hok pt r Hr).
Qed.

Lemma roots_ok_InitializePool_loop c pt n s s' :
  Inv s -> roots_ok s -> InitializePool_loop c pt n s = Some (tt, s') -> roots_ok s'.
Proof.
  revert s. induction n as [|n IH]; intros s HI Hok H; cbn [InitializePool_loop] in H.
  - unfold ret in H. by simplify_eq.
  - unfold bind in H at 1.
    destruct (SpawnObject (Some c) ZeroVector ZeroRotator pt s) as [[r s1]|] eqn:Hs; [|done].
    pose proof (roots_ok_SpawnObject _ _ _ _ _ _ _ HI Hok Hs) as Hok1.
    apply Inv_SpawnObject in Hs; [|done].
    unfold bind in H. destruct r as [a|].
    + rewrite ReturnObjectToPool_eq in H. apply IH in H; [done | by apply Inv_Return |].
      by apply roots_ok_Return.
    + unfold ret in H. by apply IH in H.
Qed.

Lemma roots_ok_step s s' : Inv s -> roots_ok s -> step s s' -> roots_ok s'.
Proof.
  intros HI Hok Hst. destruct Hst as [cls loc rot pt r s s' H | a s s' H | [c|] n pt s s' H | s s' H
                                     | a s | c loc rot a w' s Hsp | f s].
  - eapply roots_ok_SpawnObject; eauto.
  - rewrite ReturnObjectToPool_eq in H. simplify_eq. by apply roots_ok_Return.
  - eapply roots_ok_InitializePool_loop; eauto.
  - simpl in H. unfold ret in H. by simplify_eq.
  - rewrite Deinitialize_eq in H. simplify_eq. unfold deinit_state.
    destruct (MainPoolRoot s); [destruct (IsValid _ _)|];
      intros pt r Hr; simpl in Hr; by rewrite lookup_empty in Hr.
  - by apply roots_ok_set_world.
  - apply SpawnActor_Some in Hsp as (_ & -> & Hn & _).
    apply roots_ok_set_world; [lia | done].
  - by apply roots_ok_set_world.
Qed.

Lemma reachable_roots_ok s : reachable s -> roots_ok s.
Proof.
  induction 1 as [w Hw | s s' Hr IH Hst].
  - intros pt r Hr. simpl in Hr. by rewrite lookup_empty in Hr.
  - eapply roots_ok_step; [by apply reachable_Inv | done | done].
Qed.

(** In every reachable state neither [MainPoolRoot] nor any category root
    of [PoolRoots] sits in a pool or is recorded in [ActorToClassMap]; the
    category roots are handles the world has allocated. *)
Theorem reachable_roots_not_pooled s :
  reachable s ->
  (forall pt r, PoolRoots s !! pt = Some r ->
     r < w_next (world s) /\ ActorToClassMap s !! r = None /\ forall c, r ∉ pool_of s c) /\
  (forall m, MainPoolRoot s = Some m -> ActorToClassMap s !! m = None /\ forall c, m ∉ pool_of s c).
Proof.
  intros Hr. pose proof (reachable_Inv s Hr) as HI. pose proof (reachable_roots_ok s Hr) as Hok.
  split.
  - intros pt r Hpt. destruct (Hok pt r Hpt) as [Hlt Hn]. split_and!; [done | done |].
    intros c Hc. apply (Inv_pool_owner s c r HI) in Hc. congruence.
  - intros m Hm. destruct (inv_main s HI m Hm) as [_ Hn]. split; [done|].
    intros c Hc. apply (Inv_pool_owner s c m HI) in Hc. congruence.
Qed.

Lemma reachable_roots_not_pooled_witness :
  match demo_acquire with
  | Some (_, s) => forall c, 3 ∉ pool_of s c
  | None => False
  end.
Proof.
  destruct demo_acquire as [[r s]|] eqn:E; [| vm_compute in E; discriminate].
  assert (reachable s) as Hr
    by (eapply reach_step; [exact reachable_demo | eapply step_spawn; exact E]).
  assert (PoolRoots s !! GameObjects = Some 3) as Hpt
    by (vm_compute in E; injection E as <- <-; vm_compute; reflexivity).
  exact (proj2 (proj2 (proj1 (reachable_roots_not_pooled s Hr) GameObjects 3 Hpt))).
Defined.

(** From a reachable state [SpawnObject] never hands out [MainPoolRoot] or
    a category root of the state it leaves. *)
Theorem SpawnObject_never_returns_root cls loc rot pt s x s' :
  reachable s -> SpawnObject cls loc rot pt s = Some (Some x, s') ->
  MainPoolRoot s' <> Some x /\ (forall pt' r, PoolRoots s' !! pt' = Some r -> r <> x).
Proof.
  intros Hr H. destruct cls as [c|].
  2:{ unfold SpawnObject, ret in H. discriminate. }
  assert (reachable s') as Hr' by (eapply reach_step; [exact Hr | eapply step_spawn; exact H]).
  destruct (acquire_facts _ _ _ _ _ _ _ (reachable_Inv s Hr) H) as (_ & _ & Hc & _).
  split.
  - intros Hm. destruct (inv_main s' (reachable_Inv s' Hr') x Hm) as [_ Hn]. congruence.
  - intros pt' r Hpt ->. destruct (reachable_roots_ok s' Hr' pt' x Hpt) as [_ Hn]. congruence.
Qed.

Lemma SpawnObject_never_returns_root_witness :
  match demo_acquire with
  | Some (Some x, s') => MainPoolRoot s' <> Some x
  | _ => False
  end.
Proof.
  destruct demo_acquire as [[[x|] s']|] eqn:E; [| vm_compute in E; discriminate ..].
  exact (proj1 (SpawnObject_never_returns_root _ _ _ _ _ _ _ reachable_demo E)).
Defined.

(** From a reachable state, [ReturnObjectToPool] of a valid root
    ([MainPoolRoot] or a category root) takes the "not pooled" branch: it
    logs a warning for it and destroys it, and no pool changes. *)
Theorem ReturnObjectToPool_root_destroyed r s s' :
  reachable s ->
  (MainPoolRoot s = Some r \/ exists pt, PoolRoots s !! pt = Some r) ->
  r ∈ w_alive (world s) ->
  ReturnObjectToPool r s = Some (tt, s') ->
  (r ∉ w_alive (world s')) /\ warnings s' = warnings s ++ [r] /\ ObjectPools s' = ObjectPools s.
Proof.
  intros Hr Hroot Ha H. rewrite ReturnObjectToPool_eq in H. simplify_eq.
  assert (ActorToClassMap s !! r = None) as Hn.
  { destruct Hroot as [Hm | [pt Hpt]].
    - exact (proj2 (inv_main s (reachable_Inv s Hr) r Hm)).
    - exact (proj2 (reachable_roots_ok s Hr pt r Hpt)). }
  rewrite returned_foreign by done. simpl. split_and!; [set_solver | done | done].
Qed.

Lemma ReturnObjectToPool_root_destroyed_witness :
  match demo_acquire with
  | Some (_, s) =>
      match ReturnObjectToPool 3 s with
      | Some (_, s') => 3 ∉ w_alive (world s')
      | None => False
      end
  | None => False
  end.
Proof.
  destruct demo_acquire as [[r s]|] eqn:E; [| vm_compute in E; discriminate].
  assert (reachable s) as Hr
    by (eapply reach_step; [exact reachable_demo | eapply step_spawn; exact E]).
  rewrite ReturnObjectToPool_eq.
  apply (ReturnObjectToPool_root_destroyed 3 s _ Hr); [| | apply ReturnObjectToPool_eq];
    vm_compute in E; injection E as <- <-.
  - right. exists GameObjects. vm_compute. reflexivity.
  - apply IsValid_true. vm_compute. reflexivity.
Defined.

(** From a reachable state, [SpawnObject] of a class whose pool holds no
    valid actor, when the host spawns that class but not [AActor] and a
    root is missing ([MainPoolRoot] not valid, or no valid category root
    for [pt]), dereferences a null root in [GetOrCreatePoolRoot]. *)
Theorem SpawnObject_no_root_crash c loc rot pt s :
  reachable s -> w_exists (world s) = true ->
  Forall (fun y => y ∉ w_alive (world s)) (pool_of s c) ->
  w_can_spawn (world s) c = true -> w_can_spawn (world s) AActor_StaticClass = false ->
  IsValidPtr (world s) (MainPoolRoot s) = false \/
    (forall r, PoolRoots s !! pt = Some r -> r ∉ w_alive (world s)) ->
  SpawnObject (Some c) loc rot pt s = None.
Proof.
  intros Hr Hw Hf Hc Hroot Hmiss.
  destruct (SpawnObject (Some c) loc rot pt s) as [[r s']|] eqn:H; [exfalso|done].
  assert (take_from_pool (IsValid (world s)) (pool_of s c) = (None, [])) as Ht.
  { apply take_from_pool_all_invalid. eapply Forall_impl; [exact Hf|].
    intros y Hy. by apply IsValid_false. }
  apply SpawnObject_cases in H as [(Hw' & _) | (_ & Hcs)]; [congruence|].
  rewrite Ht in Hcs. simpl in Hcs.
  destruct Hcs as [(a & Ha & _) | [(_ & Hsp & _) | (a & w' & rt & s1 & _ & Hsp & Hg & _)]].
  - discriminate.
  - unfold SpawnActor in Hsp. rewrite Hc in Hsp. discriminate.
  - apply SpawnActor_Some in Hsp as (_ & -> & _ & (E1 & C1 & _) & _ & Hal).
    rewrite spawn_root_refused_crash in Hg; [discriminate | simpl; congruence
                                                     | simpl; by rewrite C1 |].
    pose proof (reachable_Inv s Hr) as HI. simpl. destruct Hmiss as [Hm | Hpt].
    + left. destruct (MainPoolRoot s) as [m|] eqn:Em; [|done]. simpl in Hm |- *.
      apply IsValid_false in Hm. apply IsValid_false. rewrite Hal.
      destruct (inv_main s HI m Em) as [Hlt _]. set_solver by lia.
    + right. intros r' Hr'. rewrite Hal.
      destruct (reachable_roots_ok s Hr pt r' Hr') as [Hlt _].
      specialize (Hpt r' Hr'). rewrite elem_of_union, elem_of_singleton. intros [->|?]; [lia | done].
Qed.

Lemma SpawnObject_no_root_crash_witness :
  SpawnObject (Some BP_Node) ZeroVector ZeroRotator GameObjects (init_state w_noroot) = None.
Proof.
  apply SpawnObject_no_root_crash; [| reflexivity | constructor | reflexivity | reflexivity | left; reflexivity].
  constructor. intros a Ha. simpl in Ha. set_solver.
Defined.

Lemma SpawnObject_records c loc rot pt s x s' :
  SpawnObject (Some c) loc rot pt s = Some (Some x, s') ->
  forall y, y < w_next (world s) -> y <> x -> w_actors (world s') !! y = w_actors (world s) !! y.
Proof.
  intros H y Hy Hne. apply SpawnObject_cases in H as [(_ & Hr & _) | (_ & Hc)]; [done|].
  destruct Hc as [(a & _ & Hr & ->) | [(_ & _ & Hr & _) | (a & w' & rt & s1 & _ & Hsp & Hg & Hr & ->)]];
    simplify_eq.
  - simpl. rewrite !lookup_alter_ne by done. done.
  - apply GetOrCreatePoolRoot_frame in Hg as (_ & _ & _ & Hg2 & _).
    apply SpawnActor_Some in Hsp as (_ & -> & _ & Hg1 & _).
    destruct (world_grows_trans _ _ _ Hg1 Hg2) as (_ & _ & _ & _ & _ & O & _).
    simpl. rewrite !lookup_alter_ne by done.
    destruct rt; simpl; rewrite ?lookup_alter_ne by done; apply O; lia.
Qed.

Lemma SpawnObject_pool_sub c loc rot pt s x s' :
  SpawnObject (Some c) loc rot pt s = Some (Some x, s') ->
  forall c' y, y ∈ pool_of s' c' -> y ∈ pool_of s c'.
Proof.
  intros H c' y Hy. apply SpawnObject_source in H as (_ & _ & _ & Hoth & Hsrc).
  destruct (decide (c' = c)) as [->|Hne].
  - destruct Hsrc as [(kept & sk & Hl & _ & _ & Hp & _) | (_ & Hp & _)]; rewrite Hp in Hy.
    + rewrite Hl. apply elem_of_app. by left.
    + by apply elem_of_nil in Hy.
  - unfold pool_of in *. by rewrite <- Hoth.
Qed.

Lemma pool_inactive_SpawnObject cls loc rot pt s r s' :
  Inv s -> pool_inactive s -> SpawnObject cls loc rot pt s = Some (r, s') -> pool_inactive s'.
Proof.
  intros HI Hp H. destruct cls as [c|].
  2:{ unfold SpawnObject, ret in H. by simplify_eq. }
  destruct r as [x|].
  - pose proof (Inv_SpawnObject _ _ _ _ _ _ _ HI H) as HI'.
    destruct (acquire_facts _ _ _ _ _ _ _ HI H) as (_ & _ & Hxc & Hxp & _).
    intros c' y Hy.
    assert (y <> x) as Hne.
    { intros ->. pose proof (Inv_pool_owner s' c' x HI' Hy) as Hc'. rewrite Hxc in Hc'.
      injection Hc' as <-. done. }
    pose proof (SpawnObject_pool_sub _ _ _ _ _ _ _ H c' y Hy) as Hy0.
    rewrite (SpawnObject_records _ _ _ _ _ _ _ H y); [by apply Hp with c' | | done].
    exact (inv_owned_old s HI _ _ (Inv_pool_owner s c' y HI Hy0)).
  - apply SpawnObject_cases in H as [(_ & _ & ->) | (_ & Hc)]; [done|].
    destruct Hc as [(a & _ & Hr & _) | [(_ & _ & _ & ->) | (a & _ & _ & _ & _ & _ & _ & Hr & _)]];
      try discriminate.
    intros c' y Hy. apply popped_pool_sub in Hy. by apply Hp with c'.
Qed.

Lemma pool_inactive_Return a s : Inv s -> pool_inactive s -> pool_inactive (returned_state a s).
Proof.
  intros HI Hp. unfold returned_state.
  destruct (IsValid (world s) a) eqn:Hv; [|done].
  destruct (ActorToClassMap s !! a) as [c|] eqn:Hc.
  - intros c' y Hy. simpl. rewrite pool_of_set_pools, lookup_insert in Hy.
    destruct (decide (y = a)) as [->|Hne].
    + apply IsValid_true in Hv. destruct (inv_alive s HI a Hv) as [_ [r Hr]].
      rewrite lookup_alter_eq, Hr. eexists. split; [reflexivity | apply set_active_rec_flags].
    + rewrite lookup_alter_ne by done. apply (Hp c').
      case_decide; simplify_eq; [|done].
      simpl in Hy. apply elem_of_AddUnique in Hy as [Hy|Hy]; [done | congruence].
  - intros c' y Hy. exact (Hp c' y Hy).
Qed.

Lemma pool_inactive_InitializePool_loop c pt n s s' :
  Inv s -> pool_inactive s -> InitializePool_loop c pt n s = Some (tt, s') -> pool_inactive s'.
Proof.
  revert s. induction n as [|n IH]; intros s HI Hp H; cbn [InitializePool_loop] in H.
  - unfold ret in H. by simplify_eq.
  - unfold bind in H at 1.
    destruct (SpawnObject (Some c) ZeroVector ZeroRotator pt s) as [[r s1]|] eqn:Hs; [|done].
    pose proof (pool_inactive_SpawnObject _ _ _ _ _ _ _ HI Hp Hs) as Hp1.
    apply Inv_SpawnObject in Hs; [|done].
    unfold bind in H. destruct r as [a|].
    + rewrite ReturnObjectToPool_eq in H. apply IH in H; [done | by apply Inv_Return |].
      by apply pool_inactive_Return.
    + unfold ret in H. by apply IH in H.
Qed.

Lemma pool_inactive_step s s' : Inv s -> pool_inactive s -> step s s' -> pool_inactive s'.
Proof.
  intros HI Hp Hst. destruct Hst as [cls loc rot pt r s s' H | a s s' H | [c|] n pt s s' H | s s' H
                                     | a s | c loc rot a w' s Hsp | f s].
  - eapply pool_inactive_SpawnObject; eauto.
  - rewrite ReturnObjectToPool_eq in H. simplify_eq. by apply pool_inactive_Return.
  - eapply pool_inactive_InitializePool_loop; eauto.
  - simpl in H. unfold ret in H. by simplify_eq.
  - rewrite Deinitialize_eq in H. simplify_eq. unfold deinit_state.
    destruct (MainPoolRoot s); [destruct (IsValid _ _)|];
      intros c y Hy; unfold pool_of in Hy; simpl in Hy; rewrite lookup_empty in Hy;
      by apply elem_of_nil in Hy.
  - intros c y Hy. exact (Hp c y Hy).
  - apply SpawnActor_Some in Hsp as (_ & -> & _ & (_ & _ & _ & _ & _ & O & _) & _).
    intros c' y Hy. simpl. rewrite O; [exact (Hp c' y Hy)|].
    exact (inv_owned_old s HI _ _ (Inv_pool_owner s c' y HI Hy)).
  - intros c y Hy. exact (Hp c y Hy).
Qed.

Lemma reachable_pool_inactive s : reachable s -> pool_inactive s.
Proof.
  induction 1 as [w Hw | s s' Hr IH Hst].
  - intros c y Hy. unfold pool_of in Hy. simpl in Hy. rewrite lookup_empty in Hy.
    by apply elem_of_nil in Hy.
  - eapply pool_inactive_step; [by apply reachable_Inv | done | done].
Qed.

(** In every reachable state each actor held in a pool has a record with
    the four settings of [SetActorActive(false)]: hidden, no collision, no
    tick, every component deactivated. *)
Theorem reachable_pooled_inactive s c a :
  reachable s -> a ∈ pool_of s c ->
  exists r, w_actors (world s) !! a = Some r /\
    a_hidden r = true /\ a_collision r = false /\ a_tick r = false /\
    Forall (fun x => x = false) (a_comps r).
Proof.
  intros Hr Ha. destruct (reachable_pool_inactive s Hr c a Ha) as (r & Hl & H1 & H2 & H3 & H4).
  exists r. split_and!; done.
Qed.

Lemma reachable_pooled_inactive_witness :
  match demo_prewarm with
  | Some (_, s) => exists r, w_actors (world s) !! 1 = Some r /\ a_tick r = false
  | None => False
  end.
Proof.
  destruct demo_prewarm as [[[] s]|] eqn:E; [| vm_compute in E; discriminate].
  assert (reachable s) as Hr
    by (eapply reach_step; [exact reachable_demo | eapply step_init; exact E]).
  assert (1 ∈ pool_of s BP_Node) as Hin
    by (vm_compute in E; injection E as <-; apply list_elem_of_In; vm_compute; left; reflexivity).
  destruct (reachable_pooled_inactive s BP_Node 1 Hr Hin) as (r & Hl & _ & _ & Ht & _).
  exists r. split; [exact Hl | exact Ht].
Defined.

Lemma acquire_record c loc rot pt s x s' :
  Inv s -> SpawnObject (Some c) loc rot pt s = Some (Some x, s') ->
  exists r, w_actors (world s') !! x = Some (set_active_rec true (set_loc_rot loc rot r)).
Proof.
  intros HI H. pose proof H as H'.
  apply SpawnObject_cases in H as [(_ & Hx & _) | (Hw & Hc)]; [done|].
  destruct Hc as [(a & Ht & Hx & ->) | [(_ & _ & Hx & _) | (a & w' & rt & s1 & Ht & Hsp & Hg & Hx & ->)]];
    simplify_eq.
  - destruct (take_from_pool (IsValid (world s)) (pool_of s c)) as [r rest] eqn:Ht'. simpl in Ht. subst r.
    destruct (take_from_pool_Some _ _ _ _ Ht') as (_ & _ & Hva & _).
    apply IsValid_true in Hva. destruct (inv_alive s HI a Hva) as [_ [r Hrec]].
    exists r. simpl. by apply place_and_activate_lookup.
  - set (w2 := match rt with Some y => modify_actor (set_parent y) (world s1) a | None => world s1 end) in *.
    assert (is_Some (w_actors w2 !! a)) as [r2 Hr2].
    { subst w2. destruct rt; [apply modify_actor_is_Some|];
      apply GetOrCreatePoolRoot_frame in Hg as (_ & _ & _ & (_ & _ & _ & _ & _ & Ho & _) & _);
      apply SpawnActor_Some in Hsp as (_ & -> & Hn & _ & Hrr & _);
      rewrite Ho; simpl; rewrite ?Hn; eauto. }
    exists r2. simpl. by apply place_and_activate_lookup.
Qed.

Lemma InitializePool_loop_S c pt n s :
  InitializePool_loop c pt (S n) s = (init_cycle c pt ;;; InitializePool_loop c pt n) s.
Proof.
  cbn [InitializePool_loop]. unfold init_cycle, bind.
  destruct (SpawnObject (Some c) ZeroVector ZeroRotator pt s) as [[r s1]|]; reflexivity.
Qed.

Lemma place_return_record r :
  set_active_rec false (set_active_rec true (set_loc_rot ZeroVector ZeroRotator
    (set_active_rec false (set_active_rec true (set_loc_rot ZeroVector ZeroRotator r))))) =
  set_active_rec false (set_active_rec true (set_loc_rot ZeroVector ZeroRotator r)).
Proof. destruct r. unfold set_active_rec, set_loc_rot. simpl. by rewrite !map_map. Qed.

(** After one spawn-and-return cycle from an invariant state, a second
    cycle leaves the state as it is. *)
Lemma init_cycle_fixpoint c pt s t :
  Inv s -> init_cycle c pt s = Some (tt, t) -> init_cycle c pt t = Some (tt, t).
Proof.
  intros HI H. unfold init_cycle, bind in H.
  destruct (SpawnObject (Some c) ZeroVector ZeroRotator pt s) as [[[x|] s1]|] eqn:Hs; [| |done].
  - rewrite ReturnObjectToPool_eq in H. injection H as <-.
    destruct (acquire_facts _ _ _ _ _ _ _ HI Hs) as (Hw1 & Hx1 & Hc1 & Hnp & _).
    destruct (acquire_record _ _ _ _ _ _ _ HI Hs) as [r0 Hr0].
    rewrite (returned_owned x c s1 Hx1 Hc1), (AddUnique_not_in _ _ Hnp).
    set (L := pool_of s1 c) in *.
    unfold init_cycle, bind.
    rewrite (SpawnObject_reuse _ _ _ _ _ x L); [| done |].
    2:{ rewrite pool_of_set_pools_insert. apply take_from_pool_app_last.
        apply IsValid_true. exact Hx1. }
    rewrite ReturnObjectToPool_eq.
    rewrite (returned_owned x c); [| exact Hx1 | exact Hc1].
    unfold pool_of at 1. simpl. rewrite lookup_insert_eq. simpl.
    rewrite (AddUnique_not_in _ _ Hnp).
    clear Hs. destruct s1 as [[W1e W1a W1l W1n W1c W1k] P1 C1 R1 M1 Wr1]. simpl in *.
    unfold set_pools, set_world, place_and_activate, modify_actor. simpl.
    do 3 f_equal.
    + f_equal. apply map_eq. intros i. destruct (decide (i = x)) as [->|Hne].
      * rewrite !lookup_alter_eq, Hr0. simpl. by rewrite place_return_record.
      * by rewrite !lookup_alter_ne.
    + by rewrite !insert_insert_eq.
  - injection H as <-. unfold init_cycle, bind at 1.
    apply SpawnObject_cases in Hs as [(Hw & _ & ->) | (Hw & Hc)].
    + assert (SpawnObject (Some c) ZeroVector ZeroRotator pt s = Some (None, s)) as E
        by (unfold SpawnObject, bind, get; rewrite Hw; done).
      by rewrite E.
    + destruct Hc as [(a & _ & Ha & _) | [(Ht & Hsp & _ & ->) | (a & _ & _ & _ & _ & _ & _ & Ha & _)]];
        try discriminate.
      assert (pool_of (popped_state c s) c = []) as Hp.
      { unfold popped_state. rewrite pool_of_set_pools_insert.
        destruct (take_from_pool (IsValid (world s)) (pool_of s c)) as [r rest] eqn:Ht'.
        simpl in Ht |- *. subst r. by destruct (take_from_pool_None _ _ _ Ht') as [-> _]. }
      rewrite SpawnObject_refused; [| done | | by rewrite Hp].
      * f_equal. f_equal. unfold popped_state. destruct s. simpl.
        rewrite insert_insert_eq. f_equal. f_equal.
        unfold popped_state in Hp. rewrite pool_of_set_pools_insert in Hp. simpl in Hp.
        by rewrite Hp.
      * simpl. unfold SpawnActor in Hsp. by destruct (w_can_spawn (world s) c).
Qed.

Lemma InitializePool_loop_fixpoint c pt n t :
  init_cycle c pt t = Some (tt, t) -> InitializePool_loop c pt n t = Some (tt, t).
Proof.
  intros Ht. induction n as [|n IH]; [done|].
  rewrite InitializePool_loop_S. unfold bind at 1. by rewrite Ht.
Qed.

(** From a reachable state, [InitializePool(c, Count)] with [Count >= 1]
    ends in the same state as [InitializePool(c, 1)]: after the first
    spawn-and-return, every later iteration takes the returned actor back
    out of the pool and puts it back where it was. *)
Theorem InitializePool_count_irrelevant c Count pt s :
  reachable s -> (1 <= Count)%Z ->
  InitializePool (Some c) Count pt s = InitializePool (Some c) 1 pt s.
Proof.
  intros Hr HC. pose proof (reachable_Inv s Hr) as HI. unfold InitializePool.
  destruct (Z.to_nat Count) as [|n] eqn:E; [lia|]. change (Z.to_nat 1) with 1.
  rewrite !InitializePool_loop_S. unfold bind.
  destruct (init_cycle c pt s) as [[[] t]|] eqn:Hc; [|done].
  rewrite InitializePool_loop_fixpoint; [done|].
  exact (init_cycle_fixpoint c pt s t HI Hc).
Qed.

Lemma InitializePool_count_irrelevant_witness :
  demo_prewarm = InitializePool (Some BP_Node) 1 GameObjects (init_state w_demo).
Proof.
  unfold demo_prewarm. apply InitializePool_count_irrelevant; [exact reachable_demo | lia].
Defined.

(** From a reachable state, the actor [SpawnObject] hands out, reused or
    new, sits at the requested [Location] and [Rotation]. *)
Theorem SpawnObject_places c loc rot pt s x s' :
  reachable s -> SpawnObject (Some c) loc rot pt s = Some (Some x, s') ->
  exists r, w_actors (world s') !! x = Some r /\ a_location r = loc /\ a_rotation r = rot.
Proof.
  intros Hr H. destruct (acquire_record _ _ _ _ _ _ _ (reachable_Inv s Hr) H) as [r0 Hr0].
  eexists. split; [exact Hr0 | done].
Qed.

Lemma SpawnObject_places_witness :
  match SpawnObject (Some BP_Node) (1, 2, 3)%Z ZeroRotator GameObjects (init_state w_demo) with
  | Some (Some x, s') => exists r, w_actors (world s') !! x = Some r /\ a_location r = (1, 2, 3)%Z
  | _ => False
  end.
Proof.
  destruct (SpawnObject (Some BP_Node) (1, 2, 3)%Z ZeroRotator GameObjects (init_state w_demo))
    as [[[x|] s']|] eqn:E; [| vm_compute in E; discriminate ..].
  destruct (SpawnObject_places _ _ _ _ _ x s' reachable_demo E) as (r & Hl & Hloc & _).
  exists r. split; [exact Hl | exact Hloc].
Defined.
